(** * PortaPack file layer: [firmware/application/file.cpp]

    A shallow embedding of the file-handle wrapper ([File]), the directory
    enumerator ([std::filesystem::directory_iterator]), the capacity query
    ([std::filesystem::space]) and the sequential filename allocator
    ([next_filename_stem_matching_pattern]), together with the properties the
    specification states about them.

    The FatFs driver is an external collaborator of [file.cpp]: it is taken
    as an interface (class [FatFs]) and every definition below is generic in
    it.  A small simulated driver ([SimFs]) instantiates the interface so that
    the definitions can be run on concrete directories and media. *)

From Stdlib Require Import ZArith List String Ascii Bool Lia.
Import ListNotations.
Local Open Scope Z_scope.

(* ================================================================= *)
(** ** Target data model *)

(** The firmware runs on a 32-bit ARM core: [int] and [size_t] have 32 bits.
    FatFs' [BYTE] is an 8-bit and its [DWORD] a 32-bit unsigned integer. *)

Definition BYTE (x : Z) : Z := x mod 2 ^ 8.
Definition DWORD (x : Z) : Z := x mod 2 ^ 32.

(** The conversion [(int)x] of an unsigned value. *)
Definition to_int (x : Z) : Z := (x + 2 ^ 31) mod 2 ^ 32 - 2 ^ 31.

(** [std::string::size()]. *)
Definition size (s : string) : Z := Z.of_nat (String.length s).

(* ================================================================= *)
(** ** The driver interface *)

(** [FILINFO]: the name of an entry (the contents of the NUL-terminated
    [fname] buffer) and its attribute bits. *)
Record FILINFO := mkFILINFO { fname : string; fattrib : Z }.

(** The fields of [FATFS] that [space] reads. *)
Record FATFS := mkFATFS { n_fatent : Z; csize : Z }.

(** What [file.cpp] takes from [ff.h]: result and flag constants, the file
    and directory objects, and the driver entry points.  A function that
    updates an object through a pointer returns the new object.  [FIL] stands
    for the file object together with what the driver reaches through it (the
    medium, the caller's buffer of a read); [f_tell] and [f_size] only read
    it.  [f_read] and [f_write] also return the final value of the
    transfer counter ([bytes_read], [bytes_written]), which the caller has
    initialised to 0.  [f_getfree] returns the result code, the final value
    of [free_clusters] and the volume object. *)
Class FatFs := {
  FR_OK : Z;
  FA_READ : Z;
  FA_WRITE : Z;
  FA_CREATE_ALWAYS : Z;
  FA_OPEN_ALWAYS : Z;
  AM_DIR : Z;
  MIN_SS : Z;
  FIL : Type;
  DIR : Type;
  f_open : FIL -> string -> Z -> Z * FIL;
  f_close : FIL -> Z * FIL;
  f_read : FIL -> Z -> Z * Z * FIL;
  f_write : FIL -> list Z -> Z -> Z * Z * FIL;
  f_lseek : FIL -> Z -> Z * FIL;
  f_tell : FIL -> Z;
  f_size : FIL -> Z;
  f_puts : string -> FIL -> Z * FIL;
  f_sync : FIL -> Z * FIL;
  f_findfirst : string -> string -> Z * DIR * FILINFO;
  f_findnext : DIR -> FILINFO -> Z * DIR * FILINFO;
  f_getfree : string -> Z * Z * FATFS;
  (** FatFs stores a result code in the one-byte [FIL::err] (line 27). *)
  FR_OK_native : 0 <= FR_OK < 2 ^ 8
}.

(** The enumerators of [File::openmode], declared in [file.hpp]. *)
Class OpenMode := {
  openmode_in : Z;
  openmode_out : Z;
  openmode_trunc : Z;
  openmode_ate : Z
}.

(** Values added to the FatFs [FRESULT] enum (lines 28-30). *)
Definition FR_DISK_FULL : Z := 0x100.
Definition FR_EOF : Z := 0x101.
Definition FR_BAD_SEEK : Z := 0x102.

(* ================================================================= *)
(** ** The file handle *)

(** The driver entry points a [File] method invokes, in call order. *)
Inductive Call :=
| Call_open (filename : string) (fatfs_mode : Z)
| Call_close
| Call_read (btr : Z)
| Call_write (data : list Z) (btw : Z)
| Call_lseek (ofs : Z)
| Call_puts (str : string)
| Call_sync.

Section FileHandle.
Context {D : FatFs} {O : OpenMode}.

(** The members of [File]: the FatFs file object and the sticky error.
    [err] holds driver codes and the three codes above. *)
Record File := mkFile { f : FIL; err : Z }.

(** A method runs on the object and appends to the trace of driver
    calls. *)
Record World := mkWorld { this : File; trace : list Call }.

Definition M (A : Type) : Type := World -> A * World.

Definition ret {A} (a : A) : M A := fun w => (a, w).

Definition bind {A B} (m : M A) (k : A -> M B) : M B :=
  fun w => let (a, w') := m w in k a w'.

Definition get_err : M Z := fun w => (err (this w), w).

Definition set_err (e : Z) : M unit :=
  fun w => (tt, mkWorld (mkFile (f (this w)) e) (trace w)).

Definition get_f : M FIL := fun w => (f (this w), w).

(** Invoke a driver function on [&f] and record the call. *)
Definition driver {A} (c : Call) (op : FIL -> A * FIL) : M A :=
  fun w =>
    let (a, f') := op (f (this w)) in
    (a, mkWorld (mkFile f' (err (this w))) (trace w ++ [c])).

Definition when (b : bool) (m : M unit) : M unit :=
  if b then m else ret tt.

End FileHandle.

Notation "x <- m ;; k" := (bind m (fun x => k))
  (at level 61, m at next level, right associativity).
Notation "m ;;; k" := (bind m (fun _ => k))
  (at level 61, right associativity).

Section FileMethods.
Context {D : FatFs} {O : OpenMode}.

(** [mode & flag] as a condition. *)
Definition has (mode flag : Z) : bool := negb (Z.land mode flag =? 0).

(** Lines 37-49. *)
Definition fatfs_mode_of (mode : Z) : Z :=
  let fatfs_mode := 0 in
  let fatfs_mode :=
    if has mode openmode_in then BYTE (Z.lor fatfs_mode FA_READ)
    else fatfs_mode in
  let fatfs_mode :=
    if has mode openmode_out then BYTE (Z.lor fatfs_mode FA_WRITE)
    else fatfs_mode in
  let fatfs_mode :=
    if has mode openmode_trunc then BYTE (Z.lor fatfs_mode FA_CREATE_ALWAYS)
    else fatfs_mode in
  let fatfs_mode :=
    if has mode openmode_ate then BYTE (Z.lor fatfs_mode FA_OPEN_ALWAYS)
    else fatfs_mode in
  fatfs_mode.

(** [File::File] (lines 32-60). *)
Definition File_ctor (filename : string) (mode : Z) : M unit :=
  set_err FR_OK ;;;
  let fatfs_mode := fatfs_mode_of mode in
  r <- driver (Call_open filename fatfs_mode)
         (fun f => f_open f filename fatfs_mode) ;;
  set_err r ;;;
  e <- get_err ;;
  when (e =? FR_OK)
    (when (has mode openmode_ate)
       (f0 <- get_f ;;
        let ofs := f_size f0 in
        r <- driver (Call_lseek ofs) (fun f => f_lseek f ofs) ;;
        set_err r ;;;
        e <- get_err ;;
        when (negb (e =? FR_OK))
          (_ <- driver Call_close f_close ;; ret tt))).

(** [File::read] (lines 66-77). *)
Definition read (bytes_to_read : Z) : M bool :=
  e <- get_err ;;
  if negb (e =? FR_OK) then ret false
  else
    rb <- driver (Call_read bytes_to_read)
            (fun f => let '(r, br, f') := f_read f bytes_to_read in
                      ((r, br), f')) ;;
    let (r, bytes_read) := (rb : Z * Z) in
    set_err r ;;;
    when (negb (bytes_read =? bytes_to_read)) (set_err FR_EOF) ;;;
    e <- get_err ;;
    ret (e =? FR_OK).

(** [File::write] (lines 79-90). *)
Definition write (data : list Z) (bytes_to_write : Z) : M bool :=
  e <- get_err ;;
  if negb (e =? FR_OK) then ret false
  else
    rb <- driver (Call_write data bytes_to_write)
            (fun f => let '(r, bw, f') := f_write f data bytes_to_write in
                      ((r, bw), f')) ;;
    let (r, bytes_written) := (rb : Z * Z) in
    set_err r ;;;
    when (negb (bytes_written =? bytes_to_write)) (set_err FR_DISK_FULL) ;;;
    e <- get_err ;;
    ret (e =? FR_OK).

(** [File::seek] (lines 92-107).  [return false] converts to 0. *)
Definition seek (new_position : Z) : M Z :=
  e <- get_err ;;
  if negb (e =? FR_OK) then ret 0
  else
    f0 <- get_f ;;
    let old_position := f_tell f0 in
    r <- driver (Call_lseek new_position)
           (fun f => f_lseek f new_position) ;;
    set_err r ;;;
    e <- get_err ;;
    when (negb (e =? FR_OK))
      (_ <- driver Call_close f_close ;; ret tt) ;;;
    f1 <- get_f ;;
    when (negb (f_tell f1 =? new_position))
      (set_err FR_BAD_SEEK ;;;
       _ <- driver Call_close f_close ;; ret tt) ;;;
    ret old_position.

(** [File::puts] (lines 109-115). *)
Definition puts (str : string) : M bool :=
  result <- driver (Call_puts str) (fun f => f_puts str f) ;;
  when (negb (result =? to_int (size str))) (set_err FR_DISK_FULL) ;;;
  ret (0 <=? result).

(** [File::sync] (lines 117-124). *)
Definition sync : M bool :=
  e <- get_err ;;
  if negb (e =? FR_OK) then ret false
  else
    r <- driver Call_sync f_sync ;;
    set_err r ;;;
    e <- get_err ;;
    ret (e =? FR_OK).

End FileMethods.


(* ================================================================= *)
(** ** Directory enumeration and capacity ([namespace std::filesystem]) *)

Section Filesystem.
Context {D : FatFs}.

(** [directory_iterator::Impl]: the search handle and the current entry. *)
Record Impl := mkImpl { dir : DIR; filinfo : FILINFO }.

(** A [directory_iterator] is its member [impl], a [shared_ptr<Impl>];
    [None] is the null pointer left by [impl.reset()]. *)
Definition directory_iterator : Type := option Impl.

(** Modelled from the spec: the comparison of enumerators, an inline
    function of [file.hpp], which is not part of the sources.  An enumerator
    is exhausted when it has no current entry, and two enumerators compare
    equal only when both are exhausted, so a range-based [for] runs until
    [impl] is null. *)
Definition exhausted (it : directory_iterator) : bool :=
  match it with None => true | Some _ => false end.

(** Modelled from the spec: [directory_entry::path()] of [file.hpp], the
    name of the current entry. *)
Definition path (entry : FILINFO) : string := fname entry.

(** Modelled from the spec: [directory_entry::status()] of [file.hpp], the
    attribute bits of the current entry. *)
Definition status (entry : FILINFO) : Z := fattrib entry.

(** [directory_iterator::directory_iterator] (lines 211-221). *)
Definition directory_iterator_ctor (p wild : string) : directory_iterator :=
  let '(result, d, fi) := f_findfirst p wild in
  if negb (result =? FR_OK) then None else Some (mkImpl d fi).

(** [directory_iterator::operator++] (lines 223-229).  [fname[0] == 0]
    holds when the name is empty.  Advancing an iterator whose [impl] is
    null dereferences a null pointer: the result is undefined ([None]). *)
Definition advance (it : directory_iterator) : option directory_iterator :=
  match it with
  | None => None
  | Some i =>
      let '(result, d, fi) := f_findnext (dir i) (filinfo i) in
      if negb (result =? FR_OK) || (fname fi =? "")%string
      then Some None
      else Some (Some (mkImpl d fi))
  end.

(** [is_regular_file] (lines 231-233). *)
Definition is_regular_file (s : Z) : bool := Z.land s AM_DIR =? 0.

(** [space_info], declared in [file.hpp]. *)
Record space_info := mkSpace { capacity : Z; free : Z; available : Z }.

(** [space] (lines 235-251).  The products are computed in [DWORD]
    arithmetic, the type of [n_fatent] and [free_clusters]. *)
Definition space (p : string) : space_info :=
  let '(result, free_clusters, fs) := f_getfree p in
  if result =? FR_OK then
    mkSpace
      (DWORD (DWORD (DWORD (n_fatent fs - 2) * csize fs) * MIN_SS))
      (DWORD (DWORD (free_clusters * csize fs) * MIN_SS))
      (DWORD (DWORD (free_clusters * csize fs) * MIN_SS))
  else mkSpace 0 0 0.

End Filesystem.

(* ================================================================= *)
(** ** The sequential filename allocator *)

Section Allocator.
Context {D : FatFs}.

(** The body of the loop of [find_last_file_matching_pattern]
    (lines 129-134); [match > last_match] compares the strings
    lexicographically, character by character as unsigned bytes. *)
Definition keep_last (entry : FILINFO) (last_match : string) : string :=
  if is_regular_file (status entry) then
    let match_ := path entry in
    if (last_match <? match_)%string then match_ else last_match
  else last_match.

(** The range-based [for] of line 128: run the body on the current entry
    and advance, until the iterator is exhausted.  The driver decides how
    many entries there are, so the loop takes fuel; [None] is fuel
    exhaustion. *)
Fixpoint find_last_loop (fuel : nat) (it : directory_iterator)
    (last_match : string) : option string :=
  match it with
  | None => Some last_match
  | Some i =>
      match fuel with
      | O => None
      | S fuel' =>
          let last_match := keep_last (filinfo i) last_match in
          match advance it with
          | Some it' => find_last_loop fuel' it' last_match
          | None => None
          end
      end
  end.

(** [find_last_file_matching_pattern] (lines 126-137). *)
Definition find_last_file_matching_pattern (fuel : nat) (pattern : string)
    : option string :=
  find_last_loop fuel (directory_iterator_ctor "" pattern) "".

End Allocator.

(** [std::string::find_last_of(c)]; [None] is [npos]. *)
Fixpoint find_last_of (c : ascii) (s : string) : option nat :=
  match s with
  | EmptyString => None
  | String a s' =>
      match find_last_of c s' with
      | Some i => Some (S i)
      | None => if (a =? c)%char then Some O else None
      end
  end.

(** [remove_filename_extension] (lines 139-142); [substr(0, npos)] is the
    whole string. *)
Definition remove_filename_extension (filename : string) : string :=
  match find_last_of "." filename with
  | Some extension_index => substring 0 extension_index filename
  | None => filename
  end.

(** The loop of [increment_filename_stem_ordinal] (lines 150-162) on the
    characters from [rbegin()] on, that is on the reversed string.  [None]
    is one of the two [return { }]; otherwise the updated characters. *)
Fixpoint increment_loop (r : list ascii) : option (list ascii) :=
  match r with
  | [] => Some []
  | c :: r' =>
      if (c <? "0")%char then None
      else if (c <? "9")%char then
        Some (ascii_of_N (N_of_ascii c + 1) :: r')
      else if (c =? "9")%char then
        match increment_loop r' with
        | Some r'' => Some ("0"%char :: r'')
        | None => None
        end
      else None
  end.

(** [increment_filename_stem_ordinal] (lines 144-165). *)
Definition increment_filename_stem_ordinal (filename_stem : string) : string :=
  match increment_loop (rev (list_ascii_of_string filename_stem)) with
  | Some r => string_of_list_ascii (rev r)
  | None => EmptyString
  end.

(** [std::replace(begin, end, old, new)]. *)
Fixpoint replace (old new : ascii) (s : string) : string :=
  match s with
  | EmptyString => EmptyString
  | String c s' =>
      String (if (c =? old)%char then new else c) (replace old new s')
  end.

Section NextStem.
Context {D : FatFs}.

(** [next_filename_stem_matching_pattern] (lines 167-177). *)
Definition next_filename_stem_matching_pattern (fuel : nat)
    (filename_stem_pattern : string) : option string :=
  match find_last_file_matching_pattern fuel
          (filename_stem_pattern ++ ".*")%string with
  | None => None
  | Some filename =>
      let filename_stem := remove_filename_extension filename in
      if (filename_stem =? "")%string then
        Some (replace "?" "0" filename_stem_pattern)
      else
        Some (increment_filename_stem_ordinal filename_stem)
  end.

End NextStem.

(* ================================================================= *)
(** ** A simulated driver *)

(** Modelled from the spec: the block filesystem driver (FatFs), which is
    not part of the sources, as the capability of section 6 of the
    specification.  It is an executable stand-in on one medium, used to run
    the definitions above: a directory is a list of entries, read in
    directory order; a volume is what [f_getfree] answers; an open file is
    a position in a file of [sim_fsize] bytes that can grow to [sim_room]
    bytes.  [sim_faults] are the result codes of the coming fallible calls
    ([FR_OK] once the list is empty), which lets a run inject driver
    failures. *)
Module Sim.

Record fil := mkFil {
  sim_fptr : Z;
  sim_fsize : Z;
  sim_room : Z;
  sim_faults : list Z
}.

Definition next_result (f : fil) : Z * fil :=
  match sim_faults f with
  | [] => (0, f)
  | r :: rest => (r, mkFil (sim_fptr f) (sim_fsize f) (sim_room f) rest)
  end.

Definition move (f : fil) (pos : Z) : fil :=
  mkFil pos (Z.max (sim_fsize f) pos) (sim_room f) (sim_faults f).

Definition open (f : fil) (_ : string) (_ : Z) : Z * fil :=
  let (r, f) := next_result f in
  (r, mkFil 0 (sim_fsize f) (sim_room f) (sim_faults f)).

Definition close (f : fil) : Z * fil := (0, f).

Definition read (f : fil) (btr : Z) : Z * Z * fil :=
  let (r, f) := next_result f in
  if r =? 0 then
    let n := Z.max 0 (Z.min btr (sim_fsize f - sim_fptr f)) in
    (0, n, move f (sim_fptr f + n))
  else (r, 0, f).

Definition write (f : fil) (_ : list Z) (btw : Z) : Z * Z * fil :=
  let (r, f) := next_result f in
  if r =? 0 then
    let n := Z.max 0 (Z.min btw (sim_room f - sim_fptr f)) in
    (0, n, move f (sim_fptr f + n))
  else (r, 0, f).

(** A seek beyond the room of the medium is clamped and still reports
    success. *)
Definition lseek (f : fil) (ofs : Z) : Z * fil :=
  let (r, f) := next_result f in
  if r =? 0 then (0, move f (Z.min ofs (sim_room f))) else (r, f).

Definition puts (str : string) (f : fil) : Z * fil :=
  let (r, f) := next_result f in
  if r =? 0 then
    let n := Z.max 0 (Z.min (size str) (sim_room f - sim_fptr f)) in
    (n, move f (sim_fptr f + n))
  else (-1, f).

Definition sync (f : fil) : Z * fil := next_result f.

(** Wildcard matching: [?] stands for one character, [*] for any run of
    characters. *)
Fixpoint wild_match (pat : string) : string -> bool :=
  match pat with
  | EmptyString => fun s => (s =? "")%string
  | String c pat' =>
      if (c =? "*")%char then
        fix star (s : string) : bool :=
          wild_match pat' s
          || match s with
             | EmptyString => false
             | String _ s' => star s'
             end
      else
        fun s =>
          match s with
          | EmptyString => false
          | String a s' =>
              ((c =? "?")%char || (c =? a)%char) && wild_match pat' s'
          end
  end.

(** An open directory search: the pattern and the entries not yet read. *)
Record sdir := mkDir { sim_pat : string; sim_rest : list FILINFO }.

Definition no_entry : FILINFO := mkFILINFO "" 0.

(** The next entry matching the pattern; at the end of the directory the
    call succeeds and leaves an empty name. *)
Fixpoint next_match (pat : string) (rest : list FILINFO)
    : list FILINFO * FILINFO :=
  match rest with
  | [] => ([], no_entry)
  | e :: rest' =>
      if wild_match pat (fname e) then (rest', e) else next_match pat rest'
  end.

Definition findnext (d : sdir) (_ : FILINFO) : Z * sdir * FILINFO :=
  let (rest, e) := next_match (sim_pat d) (sim_rest d) in
  (0, mkDir (sim_pat d) rest, e).

(** Only the root directory [""] exists ([FR_NO_PATH] is 5). *)
Definition findfirst (entries : list FILINFO) (p wild : string)
    : Z * sdir * FILINFO :=
  if (p =? "")%string then findnext (mkDir wild entries) no_entry
  else (5, mkDir wild [], no_entry).

Definition FR_OK_is_native : 0 <= 0 < 2 ^ 8 :=
  conj (Z.le_refl 0) (eq_refl Lt).

End Sim.

(** The simulated driver on a medium with the directory [entries] and the
    volume answer [vol], with the constants of FatFs' [ff.h]. *)
Definition SimFs (entries : list FILINFO) (vol : Z * Z * FATFS) : FatFs := {|
  FR_OK := 0;
  FA_READ := 0x01;
  FA_WRITE := 0x02;
  FA_CREATE_ALWAYS := 0x08;
  FA_OPEN_ALWAYS := 0x10;
  AM_DIR := 0x10;
  MIN_SS := 512;
  FIL := Sim.fil;
  DIR := Sim.sdir;
  f_open := Sim.open;
  f_close := Sim.close;
  f_read := Sim.read;
  f_write := Sim.write;
  f_lseek := Sim.lseek;
  f_tell := Sim.sim_fptr;
  f_size := Sim.sim_fsize;
  f_puts := Sim.puts;
  f_sync := Sim.sync;
  f_findfirst := Sim.findfirst entries;
  f_findnext := Sim.findnext;
  f_getfree := fun _ => vol;
  FR_OK_native := Sim.FR_OK_is_native
|}.

Definition SimModes : OpenMode := {|
  openmode_in := 0x01;
  openmode_out := 0x02;
  openmode_trunc := 0x04;
  openmode_ate := 0x08
|}.

(** A regular file and a sub-directory of the simulated medium. *)
Definition file_entry (name : string) : FILINFO := mkFILINFO name 0x20.
Definition dir_entry (name : string) : FILINFO := mkFILINFO name 0x10.

(** A medium with no volume mounted ([FR_NOT_ENABLED] is 12). *)
Definition no_volume : Z * Z * FATFS := (12, 0, mkFATFS 0 0).

(** A fresh file object on a medium: [size] bytes long, [room] bytes at
    most, and the result codes of the coming calls. *)
Definition sim_file (size room : Z) (faults : list Z) : Sim.fil :=
  Sim.mkFil 0 size room faults.

(* ================================================================= *)
(** ** Vocabulary of the properties *)

(** The operations gated by the sticky error, and a caller issuing a series
    of them on one handle. *)
Inductive GatedOp :=
| Op_read (bytes_to_read : Z)
| Op_write (data : list Z) (bytes_to_write : Z)
| Op_sync.

Definition run_op {D : FatFs} (o : GatedOp) : M bool :=
  match o with
  | Op_read n => read n
  | Op_write data n => write data n
  | Op_sync => sync
  end.

Fixpoint run_ops {D : FatFs} (ops : list GatedOp) : M (list bool) :=
  match ops with
  | [] => ret []
  | o :: ops' => b <- run_op o ;; bs <- run_ops ops' ;; ret (b :: bs)
  end.

(** [advances it it']: [it'] is reached from [it] by defined applications
    of [operator++]. *)
Inductive advances {D : FatFs}
  : directory_iterator -> directory_iterator -> Prop :=
| advances_none : forall it, advances it it
| advances_step : forall it it1 it2,
    advance it = Some it1 -> advances it1 it2 -> advances it it2.

(** The string of [n] copies of a character. *)
Fixpoint chars (c : ascii) (n : nat) : string :=
  match n with
  | O => EmptyString
  | S n' => String c (chars c n')
  end.

(** The names of the regular files of a directory listing that match a
    wildcard of the simulated driver. *)
Definition regular_matches {D : FatFs} (wild : string) (d : list FILINFO)
    : list string :=
  map fname
    (filter (fun e => Sim.wild_match wild (fname e)
                      && is_regular_file (status e)) d).

(** The body of the loop of [find_last_file_matching_pattern] folded over
    a list of entries. *)
Definition scan {D : FatFs} (es : list FILINFO) (init : string) : string :=
  fold_left (fun last_match e => keep_last e last_match) es init.

(* ================================================================= *)
(** ** Media and handles of the simulated driver *)

Definition demo : FatFs := SimFs [] no_volume.

Definition demo_world (size room : Z) (faults : list Z) (e : Z)
    : @World demo :=
  @mkWorld demo (@mkFile demo (sim_file size room faults) e) [].

Definition only_CAP999 : list FILINFO := [file_entry "CAP999.BIN"].

Definition captures_0_1_4 : list FILINFO :=
  [file_entry "CAP001.BIN"; dir_entry "CAP007.DIR"; file_entry "NOTES.TXT";
   file_entry "CAP004.BIN"; file_entry "CAP000.BIN"].

(** A volume of 4 GiB: 131072 data clusters of 64 sectors of 512 bytes, all
    of them in use. *)
Definition full_4GiB_volume : FatFs :=
  SimFs [] (0, 0, mkFATFS 131074 64).

(** A card of 16 GB: 485000 data clusters of 64 sectors of 512 bytes,
    200000 of them free. *)
Definition card_16GB : FatFs :=
  SimFs [] (0, 200000, mkFATFS 485002 64).

(* ================================================================= *)
(** ** The rest of [file.cpp] *)

Section Lifetime.
Context {D : FatFs}.

(** [File::~File] (lines 62-64). *)
Definition File_dtor : M unit :=
  _ <- driver Call_close f_close ;; ret tt.

End Lifetime.

(** The native result codes of [ff.h] named by the [switch] of
    [filesystem_error::what].  The case labels of a [switch] are pairwise
    distinct, the three added codes included. *)
Class ResultCodes {D : FatFs} := {
  FR_DISK_ERR : Z;
  FR_INT_ERR : Z;
  FR_NOT_READY : Z;
  FR_NO_FILE : Z;
  FR_NO_PATH : Z;
  FR_INVALID_NAME : Z;
  FR_DENIED : Z;
  FR_EXIST : Z;
  FR_INVALID_OBJECT : Z;
  FR_WRITE_PROTECTED : Z;
  FR_INVALID_DRIVE : Z;
  FR_NOT_ENABLED : Z;
  FR_NO_FILESYSTEM : Z;
  FR_MKFS_ABORTED : Z;
  FR_TIMEOUT : Z;
  FR_LOCKED : Z;
  FR_NOT_ENOUGH_CORE : Z;
  FR_TOO_MANY_OPEN_FILES : Z;
  FR_INVALID_PARAMETER : Z;
  case_labels_distinct :
    NoDup [FR_OK; FR_DISK_ERR; FR_INT_ERR; FR_NOT_READY; FR_NO_FILE;
           FR_NO_PATH; FR_INVALID_NAME; FR_DENIED; FR_EXIST;
           FR_INVALID_OBJECT; FR_WRITE_PROTECTED; FR_INVALID_DRIVE;
           FR_NOT_ENABLED; FR_NO_FILESYSTEM; FR_MKFS_ABORTED; FR_TIMEOUT;
           FR_LOCKED; FR_NOT_ENOUGH_CORE; FR_TOO_MANY_OPEN_FILES;
           FR_INVALID_PARAMETER; FR_EOF; FR_DISK_FULL; FR_BAD_SEEK]
}.

(** A [switch] over case labels with their results: the result of the
    first label equal to the scrutinee, or the default. *)
Fixpoint switch (cases : list (Z * string)) (default : string) (x : Z)
    : string :=
  match cases with
  | [] => default
  | (label, result) :: cases' =>
      if x =? label then result else switch cases' default x
  end.

Section ErrorText.
Context {D : FatFs} {C : ResultCodes}.

(** The cases of [filesystem_error::what] (lines 184-206). *)
Definition what_cases : list (Z * string) :=
  [(FR_OK, "");
   (FR_DISK_ERR, "disk error");
   (FR_INT_ERR, "insanity detected");
   (FR_NOT_READY, "not ready");
   (FR_NO_FILE, "no file");
   (FR_NO_PATH, "no path");
   (FR_INVALID_NAME, "invalid name");
   (FR_DENIED, "denied");
   (FR_EXIST, "exists");
   (FR_INVALID_OBJECT, "invalid object");
   (FR_WRITE_PROTECTED, "write protected");
   (FR_INVALID_DRIVE, "invalid drive");
   (FR_NOT_ENABLED, "not enabled");
   (FR_NO_FILESYSTEM, "no filesystem");
   (FR_MKFS_ABORTED, "mkfs aborted");
   (FR_TIMEOUT, "timeout");
   (FR_LOCKED, "locked");
   (FR_NOT_ENOUGH_CORE, "not enough core");
   (FR_TOO_MANY_OPEN_FILES, "too many open files");
   (FR_INVALID_PARAMETER, "invalid parameter");
   (FR_EOF, "end of file");
   (FR_DISK_FULL, "disk full");
   (FR_BAD_SEEK, "bad seek")]%string.

(** [filesystem_error::what] (lines 182-209) on the member [err]. *)
Definition what (err : Z) : string := switch what_cases "unknown" err.

End ErrorText.

(** The methods of [File], the value each returns, and a caller issuing a
    series of them on one handle. *)
Inductive Method :=
| Do_read (bytes_to_read : Z)
| Do_write (data : list Z) (bytes_to_write : Z)
| Do_seek (new_position : Z)
| Do_puts (str : string)
| Do_sync.

Inductive Returned :=
| Flag (b : bool)
| Position (p : Z).

Definition run_method {D : FatFs} (m : Method) : M Returned :=
  match m with
  | Do_read n => b <- read n ;; ret (Flag b)
  | Do_write data n => b <- write data n ;; ret (Flag b)
  | Do_seek p => old <- seek p ;; ret (Position old)
  | Do_puts s => b <- puts s ;; ret (Flag b)
  | Do_sync => b <- sync ;; ret (Flag b)
  end.

Fixpoint run_methods {D : FatFs} (ms : list Method) : M (list Returned) :=
  match ms with
  | [] => ret []
  | m :: ms' => r <- run_method m ;; rs <- run_methods ms' ;; ret (r :: rs)
  end.

(** What a method returns when it is refused, and the driver calls a
    series of methods issues on a failed handle. *)
Definition refusal (m : Method) (r : Returned) : Prop :=
  match m with
  | Do_seek _ => r = Position 0
  | Do_puts _ => exists b, r = Flag b
  | _ => r = Flag false
  end.

Fixpoint puts_calls (ms : list Method) : list Call :=
  match ms with
  | [] => []
  | Do_puts s :: ms' => Call_puts s :: puts_calls ms'
  | _ :: ms' => puts_calls ms'
  end.

Definition is_close (c : Call) : bool :=
  match c with Call_close => true | _ => false end.

(** The number of [f_close] calls in a trace. *)
Definition closes (tr : list Call) : nat := List.length (filter is_close tr).

(** Decimal digits and the number a string of digits denotes, read from its
    last character on. *)
Definition is_digit (c : ascii) : bool :=
  negb (c <? "0")%char && negb ("9" <? c)%char.

Definition all_digits (s : string) : bool :=
  forallb is_digit (list_ascii_of_string s).

Definition digit_value (c : ascii) : Z := Z.of_N (N_of_ascii c) - 48.

Fixpoint value_from_last (r : list ascii) : Z :=
  match r with
  | [] => 0
  | c :: r' => digit_value c + 10 * value_from_last r'
  end.

Definition decimal (s : string) : Z :=
  value_from_last (rev (list_ascii_of_string s)).

(** The FatFs values of the native result codes, for the simulated
    driver. *)
Definition demo_codes : @ResultCodes demo.
Proof.
  refine {|
    FR_DISK_ERR := 1;
    FR_INT_ERR := 2;
    FR_NOT_READY := 3;
    FR_NO_FILE := 4;
    FR_NO_PATH := 5;
    FR_INVALID_NAME := 6;
    FR_DENIED := 7;
    FR_EXIST := 8;
    FR_INVALID_OBJECT := 9;
    FR_WRITE_PROTECTED := 10;
    FR_INVALID_DRIVE := 11;
    FR_NOT_ENABLED := 12;
    FR_NO_FILESYSTEM := 13;
    FR_MKFS_ABORTED := 14;
    FR_TIMEOUT := 15;
    FR_LOCKED := 16;
    FR_NOT_ENOUGH_CORE := 17;
    FR_TOO_MANY_OPEN_FILES := 18;
    FR_INVALID_PARAMETER := 19
  |}.
  change (@FR_OK demo) with 0. unfold FR_EOF, FR_DISK_FULL, FR_BAD_SEEK.
  repeat (constructor; [cbn [In]; lia|]). constructor.
Defined.

(* ================================================================= *)
(** * Properties of the file handle *)

Section FileProperties.
Context {D : FatFs}.

Lemma FR_EOF_not_OK : FR_EOF <> FR_OK.
Proof. pose proof FR_OK_native. unfold FR_EOF. lia. Qed.

Lemma FR_DISK_FULL_not_OK : FR_DISK_FULL <> FR_OK.
Proof. pose proof FR_OK_native. unfold FR_DISK_FULL. lia. Qed.

Lemma FR_BAD_SEEK_not_OK : FR_BAD_SEEK <> FR_OK.
Proof. pose proof FR_OK_native. unfold FR_BAD_SEEK. lia. Qed.

(** The three gated operations do nothing at all on a failed handle. *)
Lemma gated_noop (o : GatedOp) (w : World) :
  err (this w) <> FR_OK -> run_op o w = (false, w).
Proof.
  intro E. apply Z.eqb_neq in E.
  destruct o; cbn [run_op]; unfold read, write, sync, bind, get_err;
    rewrite E; reflexivity.
Qed.

Lemma gated_series_noop (ops : list GatedOp) (w : World) :
  err (this w) <> FR_OK ->
  run_ops ops w = (repeat false (List.length ops), w).
Proof.
  intro E. induction ops as [|o ops IH]; cbn [run_ops List.length repeat].
  - reflexivity.
  - unfold bind at 1. rewrite (gated_noop o w E).
    unfold bind at 1. rewrite IH. reflexivity.
Qed.

(** What [read] does once the driver has answered. *)
Lemma read_run (w : World) (n r k : Z) (f' : FIL) :
  err (this w) = FR_OK ->
  f_read (f (this w)) n = (r, k, f') ->
  read n w =
    ((if k =? n then r else FR_EOF) =? FR_OK,
     mkWorld (mkFile f' (if k =? n then r else FR_EOF))
             (trace w ++ [Call_read n])).
Proof.
  intros E R. unfold read, bind, get_err, driver, set_err, when, ret.
  cbn. rewrite E, Z.eqb_refl. cbn. rewrite R. cbn.
  destruct (k =? n); reflexivity.
Qed.

Lemma write_run (w : World) (data : list Z) (n r k : Z) (f' : FIL) :
  err (this w) = FR_OK ->
  f_write (f (this w)) data n = (r, k, f') ->
  write data n w =
    ((if k =? n then r else FR_DISK_FULL) =? FR_OK,
     mkWorld (mkFile f' (if k =? n then r else FR_DISK_FULL))
             (trace w ++ [Call_write data n])).
Proof.
  intros E R. unfold write, bind, get_err, driver, set_err, when, ret.
  cbn. rewrite E, Z.eqb_refl. cbn. rewrite R. cbn.
  destruct (k =? n); reflexivity.
Qed.

Lemma sync_run (w : World) (r : Z) (f' : FIL) :
  err (this w) = FR_OK ->
  f_sync (f (this w)) = (r, f') ->
  sync w = (r =? FR_OK, mkWorld (mkFile f' r) (trace w ++ [Call_sync])).
Proof.
  intros E R. unfold sync, bind, get_err, driver, set_err, ret.
  cbn. rewrite E, Z.eqb_refl. cbn. rewrite R. reflexivity.
Qed.

(** A gated operation answers [true] exactly when the handle is sound
    afterwards. *)
Lemma gated_true_iff (o : GatedOp) (w : World) :
  fst (run_op o w) = true <-> err (this (snd (run_op o w))) = FR_OK.
Proof.
  destruct (Z.eq_dec (err (this w)) FR_OK) as [E|E].
  - destruct o as [n|data n|]; cbn [run_op].
    + destruct (f_read (f (this w)) n) as [[r k] f'] eqn:R.
      rewrite (read_run w n r k f' E R). cbn. apply Z.eqb_eq.
    + destruct (f_write (f (this w)) data n) as [[r k] f'] eqn:R.
      rewrite (write_run w data n r k f' E R). cbn. apply Z.eqb_eq.
    + destruct (f_sync (f (this w))) as [r f'] eqn:R.
      rewrite (sync_run w r f' E R). cbn. apply Z.eqb_eq.
  - rewrite (gated_noop o w E). cbn. split; [discriminate | contradiction].
Qed.

End FileProperties.

Section FileClaims.
Context {D : FatFs} {O : OpenMode}.

Lemma BYTE_bits (x i : Z) :
  0 <= i < 8 -> Z.testbit (BYTE x) i = Z.testbit x i.
Proof. intro H. unfold BYTE. apply Z.mod_pow2_bits_low. lia. Qed.

Lemma BYTE_range (x : Z) : 0 <= BYTE x < 2 ^ 8.
Proof. unfold BYTE. apply Z.mod_pos_bound. lia. Qed.

Lemma fatfs_mode_range (mode : Z) : 0 <= fatfs_mode_of mode < 2 ^ 8.
Proof.
  unfold fatfs_mode_of.
  destruct (has mode openmode_ate); [apply BYTE_range|].
  destruct (has mode openmode_trunc); [apply BYTE_range|].
  destruct (has mode openmode_out); [apply BYTE_range|].
  destruct (has mode openmode_in); [apply BYTE_range|lia].
Qed.

Lemma fatfs_mode_bits (mode i : Z) :
  0 <= i < 8 ->
  Z.testbit (fatfs_mode_of mode) i =
    (has mode openmode_in && Z.testbit FA_READ i)
    || (has mode openmode_out && Z.testbit FA_WRITE i)
    || (has mode openmode_trunc && Z.testbit FA_CREATE_ALWAYS i)
    || (has mode openmode_ate && Z.testbit FA_OPEN_ALWAYS i).
Proof.
  intro H. unfold fatfs_mode_of.
  destruct (has mode openmode_in), (has mode openmode_out),
    (has mode openmode_trunc), (has mode openmode_ate);
    repeat (rewrite ?BYTE_bits, ?Z.lor_spec, ?Z.testbit_0_l by exact H);
    cbn [andb orb]; rewrite ?orb_false_r; reflexivity.
Qed.

(** C3 — [File::File] derives the driver mode from the mode-set flag by
    flag: each bit of the mode byte handed to [f_open] is the bit of
    [FA_READ] if [in] is set, or of [FA_WRITE] if [out] is set, or of
    [FA_CREATE_ALWAYS] if [trunc] is set, or of [FA_OPEN_ALWAYS] if [ate] is
    set.  When the open fails or [ate] is absent, nothing follows the open
    and the sticky error is its result.  When the open succeeds and [ate] is
    set, the next driver call is a seek to [f_size]; if that seek fails the
    file is closed at once and the sticky error is the seek's result. *)
Theorem File_open_mode_and_ate (w : World) (filename : string) (mode : Z)
    (r : Z) (f1 : FIL) :
  let m := fatfs_mode_of mode in
  f_open (f (this w)) filename m = (r, f1) ->
  (0 <= m < 2 ^ 8 /\
   forall i, 0 <= i < 8 ->
     Z.testbit m i =
       (has mode openmode_in && Z.testbit FA_READ i)
       || (has mode openmode_out && Z.testbit FA_WRITE i)
       || (has mode openmode_trunc && Z.testbit FA_CREATE_ALWAYS i)
       || (has mode openmode_ate && Z.testbit FA_OPEN_ALWAYS i)) /\
  (r <> FR_OK \/ has mode openmode_ate = false ->
   File_ctor filename mode w =
     (tt, mkWorld (mkFile f1 r) (trace w ++ [Call_open filename m]))) /\
  (r = FR_OK -> has mode openmode_ate = true ->
   forall (r2 : Z) (f2 : FIL),
     f_lseek f1 (f_size f1) = (r2, f2) ->
     (r2 = FR_OK ->
      File_ctor filename mode w =
        (tt, mkWorld (mkFile f2 FR_OK)
               (trace w ++ [Call_open filename m; Call_lseek (f_size f1)]))) /\
     (r2 <> FR_OK ->
      File_ctor filename mode w =
        (tt, mkWorld (mkFile (snd (f_close f2)) r2)
               (trace w ++ [Call_open filename m; Call_lseek (f_size f1);
                            Call_close])))).
Proof.
  intros m R. subst m.
  split; [split; [apply fatfs_mode_range | apply fatfs_mode_bits]|].
  split.
  - intros H.
    unfold File_ctor, bind, get_err, get_f, driver, set_err, when, ret.
    cbn. rewrite R. cbn.
    destruct (Z.eqb_spec r FR_OK) as [E|E]; [|reflexivity].
    destruct H as [H|H]; [contradiction|]. rewrite H. reflexivity.
  - intros E A r2 f2 S.
    unfold File_ctor, bind, get_err, get_f, driver, set_err, when, ret.
    cbn. rewrite R. cbn. subst r. rewrite Z.eqb_refl, A. cbn.
    rewrite S. cbn.
    destruct (Z.eqb_spec r2 FR_OK) as [E2|E2]; cbn.
    + split; [intros _ | contradiction].
      subst r2. rewrite <- app_assoc. reflexivity.
    + split; [contradiction | intros _].
      destruct (f_close f2) as [rc f3]. cbn.
      rewrite <- !app_assoc. reflexivity.
Qed.

(** C4 — [File::seek] on a failed handle returns 0 and does nothing.
    Otherwise it returns the position read before the seek; the position is
    read again after the attempt (after the close, when the driver reported
    a failure) and, when it differs from the requested offset, the sticky
    error becomes bad-seek and the file is closed, whatever the driver
    reported; when it agrees, the sticky error is the driver's result. *)
Theorem seek_contract (w : World) (new_position : Z) (r : Z) (f1 : FIL) :
  f_lseek (f (this w)) new_position = (r, f1) ->
  let f2 := if r =? FR_OK then f1 else snd (f_close f1) in
  let closed := if r =? FR_OK then [] else [Call_close] in
  (err (this w) <> FR_OK -> seek new_position w = (0, w)) /\
  (err (this w) = FR_OK ->
   fst (seek new_position w) = f_tell (f (this w)) /\
   (f_tell f2 <> new_position ->
    snd (seek new_position w) =
      mkWorld (mkFile (snd (f_close f2)) FR_BAD_SEEK)
        (trace w ++ Call_lseek new_position :: closed ++ [Call_close])) /\
   (f_tell f2 = new_position ->
    snd (seek new_position w) =
      mkWorld (mkFile f2 r)
        (trace w ++ Call_lseek new_position :: closed))).
Proof.
  intros S f2 closed. split.
  - intro E. apply Z.eqb_neq in E.
    unfold seek, bind, get_err. rewrite E. reflexivity.
  - intro E.
    unfold seek, bind, get_err, get_f, driver, set_err, when, ret.
    cbn. rewrite E, Z.eqb_refl. cbn. rewrite S. cbn.
    subst f2 closed.
    destruct (Z.eqb_spec r FR_OK) as [E2|E2]; cbn.
    + destruct (Z.eqb_spec (f_tell f1) new_position) as [T|T]; cbn.
      * split; [reflexivity|]. split; [contradiction|].
        intros _. reflexivity.
      * destruct (f_close f1) as [rc f3]. cbn.
        split; [reflexivity|]. split; [|contradiction].
        intros _. rewrite <- app_assoc. reflexivity.
    + destruct (f_close f1) as [rc f3]. cbn.
      destruct (Z.eqb_spec (f_tell f3) new_position) as [T|T]; cbn.
      * split; [reflexivity|]. split; [contradiction|].
        intros _. rewrite <- app_assoc. reflexivity.
      * destruct (f_close f3) as [rc' f4]. cbn.
        split; [reflexivity|]. split; [|contradiction].
        intros _. rewrite <- !app_assoc. reflexivity.
Qed.

End FileClaims.

Section StickyErrorClaims.
Context {D : FatFs}.

(** C6 — when the driver is asked to transfer and the count it reports
    differs from the requested one, [read] leaves the sticky error at
    end-of-file and [write] at disk-full; each of the two returns true
    exactly when the error field is OK after the attempt. *)
Theorem short_transfer_is_an_error (w : World)
    (bytes_to_read bytes_to_write : Z) (data : list Z)
    (r k r' k' : Z) (f' f'' : FIL) :
  err (this w) = FR_OK ->
  f_read (f (this w)) bytes_to_read = (r, k, f') ->
  f_write (f (this w)) data bytes_to_write = (r', k', f'') ->
  (k <> bytes_to_read ->
   err (this (snd (read bytes_to_read w))) = FR_EOF) /\
  (k' <> bytes_to_write ->
   err (this (snd (write data bytes_to_write w))) = FR_DISK_FULL) /\
  (fst (read bytes_to_read w) = true <->
   err (this (snd (read bytes_to_read w))) = FR_OK) /\
  (fst (write data bytes_to_write w) = true <->
   err (this (snd (write data bytes_to_write w))) = FR_OK).
Proof.
  intros E R W. repeat split.
  - intro N. rewrite (read_run w _ r k f' E R). cbn.
    apply Z.eqb_neq in N. rewrite N. reflexivity.
  - intro N. rewrite (write_run w data _ r' k' f'' E W). cbn.
    apply Z.eqb_neq in N. rewrite N. reflexivity.
  - apply (gated_true_iff (Op_read bytes_to_read) w).
  - apply (gated_true_iff (Op_read bytes_to_read) w).
  - apply (gated_true_iff (Op_write data bytes_to_write) w).
  - apply (gated_true_iff (Op_write data bytes_to_write) w).
Qed.

Lemma to_int_small (x : Z) : 0 <= x < 2 ^ 31 -> to_int x = x.
Proof.
  intro H. unfold to_int.
  rewrite Z.mod_small by lia. lia.
Qed.

Lemma size_nonneg (s : string) : 0 <= size s.
Proof. unfold size. lia. Qed.

(** What [puts] does with the answer of the driver. *)
Lemma puts_run (w : World) (str : string) (result : Z) (f' : FIL) :
  f_puts str (f (this w)) = (result, f') ->
  puts str w =
    (0 <=? result,
     mkWorld (mkFile f' (if result =? to_int (size str)
                         then err (this w) else FR_DISK_FULL))
             (trace w ++ [Call_puts str])).
Proof.
  intro P. unfold puts, bind, driver, set_err, when, ret.
  cbn. rewrite P. cbn.
  destruct (result =? to_int (size str)); reflexivity.
Qed.

(** C5 — sticky-error invariant: on a handle whose error field is not OK,
    [read], [write] and [sync] each return false and leave the handle and
    the trace of driver calls exactly as they were (no driver function is
    invoked, the error field is unchanged); hence every later series of
    such calls on the handle answers false throughout.  The two other
    methods do not revive the handle either: [seek] does nothing and after
    [puts] the error field is still not OK. *)
Theorem sticky_error_is_terminal (w : World) (bytes : Z) (data : list Z)
    (ops : list GatedOp) (str : string) :
  err (this w) <> FR_OK ->
  read bytes w = (false, w) /\
  write data bytes w = (false, w) /\
  sync w = (false, w) /\
  run_ops ops w = (repeat false (List.length ops), w) /\
  seek bytes w = (0, w) /\
  err (this (snd (puts str w))) <> FR_OK.
Proof.
  intro E. repeat split.
  - exact (gated_noop (Op_read bytes) w E).
  - exact (gated_noop (Op_write data bytes) w E).
  - exact (gated_noop Op_sync w E).
  - exact (gated_series_noop ops w E).
  - apply Z.eqb_neq in E. unfold seek, bind, get_err. rewrite E. reflexivity.
  - destruct (f_puts str (f (this w))) as [result f'] eqn:P.
    rewrite (puts_run w str result f' P). cbn.
    destruct (result =? to_int (size str));
      [exact E | apply FR_DISK_FULL_not_OK].
Qed.

(** C9 — [File::puts] calls the text-put primitive whatever the sticky error
    is.  The sticky error becomes disk-full when the result of the primitive
    differs from the length of the string and is left as it was when the
    two agree; the boolean result is false exactly for a negative result of
    the primitive.  A negative result always differs from the length: it is
    recorded as disk-full, no code of the driver is kept.  (The length is
    compared as an [int]: strings are shorter than [2^31] bytes.) *)
Theorem puts_contract (w : World) (str : string) (result : Z) (f' : FIL) :
  size str < 2 ^ 31 ->
  f_puts str (f (this w)) = (result, f') ->
  trace (snd (puts str w)) = trace w ++ [Call_puts str] /\
  f (this (snd (puts str w))) = f' /\
  (result <> size str -> err (this (snd (puts str w))) = FR_DISK_FULL) /\
  (result = size str -> err (this (snd (puts str w))) = err (this w)) /\
  (fst (puts str w) = false <-> result < 0) /\
  (result < 0 -> err (this (snd (puts str w))) = FR_DISK_FULL).
Proof.
  intros L P. rewrite (puts_run w str result f' P). cbn.
  pose proof (size_nonneg str) as N.
  rewrite to_int_small by lia.
  split; [reflexivity|]. split; [reflexivity|].
  destruct (Z.eqb_spec result (size str)) as [E|E].
  - split; [contradiction|]. split; [reflexivity|].
    split; [|lia]. rewrite Z.leb_gt. tauto.
  - split; [reflexivity|]. split; [contradiction|].
    split; [|reflexivity]. rewrite Z.leb_gt. tauto.
Qed.

(** C10 — when the text-put primitive returns a non-negative value strictly
    smaller than the length of the string, [File::puts] sets the sticky
    error to disk-full and returns true: after a true return of [puts] the
    error field need not be OK, whereas after a true return of [read],
    [write] or [sync] it always is.  (The length of a string fits
    [size_t].) *)
Theorem puts_short_write_returns_true (w : World) (str : string)
    (result : Z) (f' : FIL) :
  size str < 2 ^ 32 ->
  f_puts str (f (this w)) = (result, f') ->
  0 <= result < size str ->
  puts str w =
    (true, mkWorld (mkFile f' FR_DISK_FULL) (trace w ++ [Call_puts str])) /\
  err (this (snd (puts str w))) <> FR_OK /\
  (forall (o : GatedOp) (w0 : World),
     fst (run_op o w0) = true -> err (this (snd (run_op o w0))) = FR_OK).
Proof.
  intros L P B.
  assert (N : (result =? to_int (size str)) = false).
  { apply Z.eqb_neq. unfold to_int.
    destruct (Z_lt_le_dec (size str) (2 ^ 31)) as [S|S].
    - rewrite Z.mod_small by lia. lia.
    - replace ((size str + 2 ^ 31) mod 2 ^ 32) with (size str - 2 ^ 31).
      + lia.
      + apply Z.mod_unique with (q := 1); lia. }
  rewrite (puts_run w str result f' P), N. cbn.
  split; [|split].
  - replace (0 <=? result) with true; [reflexivity|].
    symmetry. apply Z.leb_le. lia.
  - apply FR_DISK_FULL_not_OK.
  - intros o w0. apply (gated_true_iff o w0).
Qed.

End StickyErrorClaims.

(* ================================================================= *)
(** * Properties of the enumerator and of the capacity query *)

Section FilesystemClaims.
Context {D : FatFs}.

Lemma advances_from_exhausted (it it' : directory_iterator) :
  advances it it' -> exhausted it = true -> exhausted it' = true.
Proof.
  intros A. induction A as [it | it it1 it2 S A IH]; intro X.
  - exact X.
  - destruct it as [i|]; [discriminate X | discriminate S].
Qed.

(** C8 — the constructor of [directory_iterator] yields an exhausted
    enumerator when find-first fails (and one positioned on the entry it
    found otherwise).  An advance of a positioned enumerator is defined and
    leaves it exhausted exactly when find-next fails or yields an entry with
    an empty name; otherwise it is positioned on the new entry.  No series
    of advances leads from an exhausted enumerator to one that is not. *)
Theorem enumerator_exhaustion (p wild : string) (i : Impl)
    (r0 r : Z) (d0 d : DIR) (fi0 fi : FILINFO) :
  f_findfirst p wild = (r0, d0, fi0) ->
  f_findnext (dir i) (filinfo i) = (r, d, fi) ->
  (r0 <> FR_OK -> exhausted (directory_iterator_ctor p wild) = true) /\
  (r0 = FR_OK -> directory_iterator_ctor p wild = Some (mkImpl d0 fi0)) /\
  (exists it' : directory_iterator,
     advance (Some i) = Some it' /\
     (exhausted it' = true <-> r <> FR_OK \/ fname fi = ""%string) /\
     (exhausted it' = false -> it' = Some (mkImpl d fi))) /\
  (forall it it' : directory_iterator,
     exhausted it = true -> advances it it' -> exhausted it' = true).
Proof.
  intros F N. split; [|split; [|split]].
  - intro E. unfold directory_iterator_ctor. rewrite F.
    apply Z.eqb_neq in E. rewrite E. reflexivity.
  - intro E. unfold directory_iterator_ctor. rewrite F, E, Z.eqb_refl.
    reflexivity.
  - cbn [advance]. rewrite N.
    destruct (Z.eqb_spec r FR_OK) as [E|E]; cbn [negb orb].
    + destruct (String.eqb_spec (fname fi) "") as [S|S].
      * exists None. split; [reflexivity|]. cbn. split; [tauto|discriminate].
      * exists (Some (mkImpl d fi)). split; [reflexivity|]. cbn.
        split; [|reflexivity]. split; [discriminate|].
        intros [H|H]; contradiction.
    + exists None. split; [reflexivity|]. cbn. split; [tauto|discriminate].
  - intros it it' X A. exact (advances_from_exhausted it it' A X).
Qed.

Lemma DWORD_product (a b c : Z) :
  DWORD (DWORD (DWORD a * b) * c) = DWORD (a * b * c).
Proof.
  unfold DWORD.
  rewrite (Z.mul_mod_idemp_l a b) by lia.
  rewrite (Z.mul_mod_idemp_l (a * b) c) by lia.
  reflexivity.
Qed.

(** What [space] returns when the driver has answered. *)
Lemma space_run (p : string) (r free_clusters : Z) (fs : FATFS) :
  f_getfree p = (r, free_clusters, fs) ->
  space p =
    if r =? FR_OK then
      mkSpace (DWORD ((n_fatent fs - 2) * csize fs * MIN_SS))
              (DWORD (free_clusters * csize fs * MIN_SS))
              (DWORD (free_clusters * csize fs * MIN_SS))
    else mkSpace 0 0 0.
Proof.
  intro G. unfold space. rewrite G.
  destruct (r =? FR_OK); [|reflexivity].
  rewrite DWORD_product.
  replace (DWORD (DWORD (free_clusters * csize fs) * MIN_SS))
    with (DWORD (free_clusters * csize fs * MIN_SS)); [reflexivity|].
  unfold DWORD. rewrite Z.mul_mod_idemp_l by lia. reflexivity.
Qed.

End FilesystemClaims.

(** C7 — the code against the claim.  [space] multiplies in the 32-bit
    arithmetic of [DWORD]: on success each field is its byte count modulo
    2^32, so a count of 4 GiB or more wraps around.  On a full volume of
    4 GiB the free-space query succeeds with free cluster count 0 and the
    snapshot is all zero: the total is 0, not positive.  On a card of 16 GB
    with 200000 free clusters the free and available fields are 2258632704,
    not the 6553600000 bytes that free cluster count times cluster size
    times sector size comes to, and the total is 3007578112, not
    15892480000. *)
Theorem space_wraps_at_4GiB :
  (forall (D : FatFs) (p : string),
     @space D p =
       let '(result, free_clusters, fs) := @f_getfree D p in
       if result =? FR_OK then
         mkSpace (((n_fatent fs - 2) * csize fs * MIN_SS) mod 2 ^ 32)
                 ((free_clusters * csize fs * MIN_SS) mod 2 ^ 32)
                 ((free_clusters * csize fs * MIN_SS) mod 2 ^ 32)
       else mkSpace 0 0 0) /\
  (@f_getfree full_4GiB_volume ""
   = (@FR_OK full_4GiB_volume, 0, mkFATFS 131074 64) /\
   (131074 - 2) * 64 * @MIN_SS full_4GiB_volume = 2 ^ 32 /\
   @space full_4GiB_volume "" = mkSpace 0 0 0) /\
  (@f_getfree card_16GB "" = (@FR_OK card_16GB, 200000, mkFATFS 485002 64) /\
   200000 * 64 * @MIN_SS card_16GB = 6553600000 /\
   (485002 - 2) * 64 * @MIN_SS card_16GB = 15892480000 /\
   @space card_16GB "" = mkSpace 3007578112 2258632704 2258632704).
Proof.
  split; [|split].
  - intros D p. destruct (@f_getfree D p) as [[r fc] fs] eqn:G.
    rewrite (space_run p r fc fs G). reflexivity.
  - repeat split.
  - repeat split.
Qed.

(* ================================================================= *)
(** * Properties of the filename allocator *)

(** ** The order of [std::string] *)

Lemma string_compare_refl (s : string) : (s ?= s)%string = Eq.
Proof.
  induction s as [|c s IH]; cbn [String.compare]; [reflexivity|].
  unfold Ascii.compare. rewrite N.compare_refl. exact IH.
Qed.

Lemma string_lt_le_trans (c a b : string) :
  (c ?= a)%string = Lt -> (b ?= a)%string <> Lt -> (c ?= b)%string = Lt.
Proof.
  revert a b. induction c as [|x c IH]; intros [|y a] [|z b];
    cbn [String.compare]; try congruence.
  unfold Ascii.compare.
  destruct (N.compare_spec (N_of_ascii x) (N_of_ascii y)),
    (N.compare_spec (N_of_ascii z) (N_of_ascii y)),
    (N.compare_spec (N_of_ascii x) (N_of_ascii z));
    intros Hlt Hle; try congruence; try lia; eauto.
Qed.

(** [s <= t] is written [(t <? s) = false]. *)
Lemma string_le_trans (a b c : string) :
  (b <? a)%string = false -> (c <? b)%string = false ->
  (c <? a)%string = false.
Proof.
  unfold String.ltb. intros H1 H2.
  destruct (c ?= a)%string eqn:E; try reflexivity.
  assert (L : (c ?= b)%string = Lt).
  { apply (string_lt_le_trans c a b E).
    destruct (b ?= a)%string; congruence. }
  rewrite L in H2. discriminate.
Qed.

Lemma string_le_refl (s : string) : (s <? s)%string = false.
Proof. unfold String.ltb. rewrite string_compare_refl. reflexivity. Qed.

Lemma string_lt_le (a b : string) :
  (a <? b)%string = true -> (b <? a)%string = false.
Proof.
  unfold String.ltb. rewrite (String.compare_antisym b a).
  destruct (a ?= b)%string; cbn; congruence.
Qed.

Lemma string_le_antisym (a b : string) :
  (a <? b)%string = false -> (b <? a)%string = false -> a = b.
Proof.
  unfold String.ltb. rewrite (String.compare_antisym b a).
  destruct (a ?= b)%string eqn:E; cbn; try congruence.
  intros _ _. apply String.compare_eq_iff. exact E.
Qed.

Lemma string_empty_least (s : string) : s <> ""%string -> ("" <? s)%string = true.
Proof. destruct s; [congruence | reflexivity]. Qed.

(** ** The scan for the last match keeps the greatest regular name *)

Section LastMatch.
Context {D : FatFs}.

Lemma keep_last_grows (e : FILINFO) (last : string) :
  (keep_last e last <? last)%string = false.
Proof.
  unfold keep_last. destruct (is_regular_file (status e)).
  - destruct (last <? path e)%string eqn:L.
    + apply string_lt_le. exact L.
    + apply string_le_refl.
  - apply string_le_refl.
Qed.

Lemma keep_last_covers (e : FILINFO) (last : string) :
  is_regular_file (status e) = true ->
  (keep_last e last <? fname e)%string = false.
Proof.
  intro R. unfold keep_last, path. rewrite R.
  destruct (last <? fname e)%string eqn:L.
  - apply string_le_refl.
  - exact L.
Qed.

Lemma keep_last_cases (e : FILINFO) (last : string) :
  keep_last e last = last \/
  (is_regular_file (status e) = true /\ keep_last e last = fname e).
Proof.
  unfold keep_last, path. destruct (is_regular_file (status e)).
  - destruct (last <? fname e)%string; auto.
  - auto.
Qed.

Lemma scan_grows (es : list FILINFO) (init : string) :
  (scan es init <? init)%string = false.
Proof.
  revert init. induction es as [|e es IH]; intro init; cbn.
  - apply string_le_refl.
  - apply (string_le_trans init (keep_last e init)).
    + apply keep_last_grows.
    + apply IH.
Qed.

Lemma scan_covers (es : list FILINFO) (init : string) (e : FILINFO) :
  In e es -> is_regular_file (status e) = true ->
  (scan es init <? fname e)%string = false.
Proof.
  revert init. induction es as [|x es IH]; intros init I R; cbn.
  - destruct I.
  - destruct I as [I|I].
    + subst x. apply (string_le_trans (fname e) (keep_last e init)).
      * apply keep_last_covers. exact R.
      * apply scan_grows.
    + apply IH; assumption.
Qed.

Lemma scan_cases (es : list FILINFO) (init : string) :
  scan es init = init \/
  exists e, In e es /\ is_regular_file (status e) = true
            /\ scan es init = fname e.
Proof.
  revert init. induction es as [|x es IH]; intro init; cbn.
  - left. reflexivity.
  - destruct (IH (keep_last x init)) as [H|[e [I [R H]]]].
    + fold (scan es (keep_last x init)). rewrite H.
      destruct (keep_last_cases x init) as [K|[R K]].
      * left. exact K.
      * right. exists x. cbn. auto.
    + right. exists e. cbn. auto.
Qed.

End LastMatch.

(** ** The enumeration of a simulated directory *)

Section SimDirectory.
Variable entries : list FILINFO.
Variable vol : Z * Z * FATFS.
Variable wild : string.
Hypothesis wild_nonempty : Sim.wild_match wild "" = false.

Local Notation "'drv'" := (SimFs entries vol).
Local Notation "'matching'" :=
  (filter (fun e => Sim.wild_match wild (fname e))).

Lemma next_match_spec (rest : list FILINFO) :
  (matching rest = [] /\ Sim.next_match wild rest = ([], Sim.no_entry)) \/
  (exists rest' e,
     Sim.next_match wild rest = (rest', e) /\
     Sim.wild_match wild (fname e) = true /\
     matching rest = e :: matching rest' /\
     (List.length rest' < List.length rest)%nat).
Proof.
  induction rest as [|x rest IH]; cbn [Sim.next_match filter].
  - left. split; reflexivity.
  - destruct (Sim.wild_match wild (fname x)) eqn:W.
    + right. exists rest, x. cbn. auto.
    + destruct IH as [[F N]|[rest' [e [N [W' [F L]]]]]].
      * left. auto.
      * right. exists rest', e. cbn. auto with arith.
Qed.

Lemma find_last_loop_end (fuel : nat) (last : string) :
  @find_last_loop drv fuel None last = Some last.
Proof. destruct fuel; reflexivity. Qed.

Lemma matched_name_nonempty (e : FILINFO) :
  Sim.wild_match wild (fname e) = true -> (fname e =? "")%string = false.
Proof.
  intro W. apply String.eqb_neq. intro E. rewrite E in W. congruence.
Qed.

Lemma sim_loop (fuel : nat) :
  forall (rest : list FILINFO) (e : FILINFO) (last : string),
    (List.length rest < fuel)%nat ->
    @find_last_loop drv fuel
      (Some (@mkImpl drv (Sim.mkDir wild rest) e)) last
    = Some (@scan drv (matching rest) (@keep_last drv e last)).
Proof.
  induction fuel as [|fuel IH]; intros rest e last L; [lia|].
  cbn [find_last_loop advance dir filinfo].
  change (@f_findnext drv) with Sim.findnext.
  unfold Sim.findnext. cbn [Sim.sim_pat Sim.sim_rest].
  destruct (next_match_spec rest) as [[F N]|[rest' [e' [N [W [F L']]]]]];
    rewrite N, F.
  - cbn. apply find_last_loop_end.
  - change (@FR_OK drv) with 0. cbn [Z.eqb negb orb].
    rewrite (matched_name_nonempty e' W).
    rewrite IH by lia. reflexivity.
Qed.

Lemma keep_no_entry : @keep_last drv Sim.no_entry "" = ""%string.
Proof. reflexivity. Qed.

(** With fuel for every entry of the directory the scan terminates, with
    the result of folding the loop body over the matching entries. *)
Lemma find_last_sim (fuel : nat) :
  (List.length entries < fuel)%nat ->
  @find_last_file_matching_pattern drv fuel wild
  = Some (@scan drv (matching entries) "").
Proof.
  intro L. unfold find_last_file_matching_pattern, directory_iterator_ctor.
  change (@f_findfirst drv "" wild)
    with (Sim.findnext (Sim.mkDir wild entries) Sim.no_entry).
  unfold Sim.findnext. cbn [Sim.sim_pat Sim.sim_rest].
  destruct (next_match_spec entries) as [[F N]|[rest' [e' [N [W [F L']]]]]];
    rewrite N, F; change (@FR_OK drv) with 0; cbn [Z.eqb negb].
  - rewrite sim_loop by (cbn [List.length]; lia).
    rewrite keep_no_entry. reflexivity.
  - rewrite sim_loop by lia. reflexivity.
Qed.

Lemma regular_matches_in (name : string) :
  In name (@regular_matches drv wild entries) <->
  exists e, In e (matching entries)
            /\ @is_regular_file drv (status e) = true /\ fname e = name.
Proof.
  unfold regular_matches. rewrite in_map_iff. split.
  - intros [e [N I]]. apply filter_In in I. destruct I as [I B].
    apply andb_true_iff in B. destruct B as [W R].
    exists e. split; [|auto]. apply filter_In. auto.
  - intros [e [I [R N]]]. apply filter_In in I. destruct I as [I W].
    exists e. split; [exact N|]. apply filter_In. split; [exact I|].
    rewrite W, R. reflexivity.
Qed.

(** The scan returns the greatest name among the matching regular files. *)
Lemma find_last_greatest (fuel : nat) (g : string) :
  (List.length entries < fuel)%nat ->
  In g (@regular_matches drv wild entries) ->
  (forall name, In name (@regular_matches drv wild entries) ->
                (g <? name)%string = false) ->
  @find_last_file_matching_pattern drv fuel wild = Some g.
Proof.
  intros L G Max. rewrite (find_last_sim fuel L). f_equal.
  apply regular_matches_in in G. destruct G as [eg [Ig [Rg Ng]]].
  assert (C : (@scan drv (matching entries) "" <? g)%string = false).
  { rewrite <- Ng. apply scan_covers; assumption. }
  destruct (@scan_cases drv (matching entries) "") as [E|[e [I [R E]]]].
  - rewrite E in C. rewrite string_empty_least in C; [discriminate|].
    intro Z0. subst g. apply filter_In in Ig. destruct Ig as [_ W].
    rewrite Z0 in W. congruence.
  - apply string_le_antisym; [exact C|].
    apply Max. apply regular_matches_in. exists e. auto.
Qed.

(** Without a matching regular file the scan returns the empty string. *)
Lemma find_last_nothing (fuel : nat) :
  (List.length entries < fuel)%nat ->
  @regular_matches drv wild entries = [] ->
  @find_last_file_matching_pattern drv fuel wild = Some ""%string.
Proof.
  intros L G. rewrite (find_last_sim fuel L). f_equal.
  destruct (@scan_cases drv (matching entries) "") as [E|[e [I [R E]]]].
  - exact E.
  - assert (X : In (fname e) (@regular_matches drv wild entries)).
    { apply regular_matches_in. exists e. auto. }
    rewrite G in X. destruct X.
Qed.

End SimDirectory.

(** ** The increment of the ordinal *)

Lemma list_of_append (a b : string) :
  list_ascii_of_string (a ++ b)
  = (list_ascii_of_string a ++ list_ascii_of_string b)%list.
Proof.
  induction a as [|c a IH]; cbn; [reflexivity|]. rewrite IH. reflexivity.
Qed.

Lemma string_of_app (l1 l2 : list ascii) :
  string_of_list_ascii (l1 ++ l2)
  = (string_of_list_ascii l1 ++ string_of_list_ascii l2)%string.
Proof.
  induction l1 as [|c l1 IH]; cbn; [reflexivity|]. rewrite IH. reflexivity.
Qed.

Lemma list_of_chars (c : ascii) (n : nat) :
  list_ascii_of_string (chars c n) = repeat c n.
Proof. induction n as [|n IH]; cbn; [reflexivity|]. rewrite IH. reflexivity. Qed.

Lemma string_of_repeat (c : ascii) (n : nat) :
  string_of_list_ascii (repeat c n) = chars c n.
Proof. induction n as [|n IH]; cbn; [reflexivity|]. rewrite IH. reflexivity. Qed.

(** The carry runs through a block of nines and turns it into zeros. *)
Lemma increment_loop_nines (n : nat) (r : list ascii) :
  increment_loop (repeat "9"%char n ++ r) =
    match increment_loop r with
    | Some r' => Some (repeat "0"%char n ++ r')
    | None => None
    end.
Proof.
  induction n as [|n IH]; cbn [repeat app].
  - destruct (increment_loop r); reflexivity.
  - cbn [increment_loop]. change ("9" <? "0")%char with false.
    change ("9" <? "9")%char with false. change ("9" =? "9")%char with true.
    cbn iota. rewrite IH. destruct (increment_loop r); reflexivity.
Qed.

(** The characters seen from [rbegin()] on when the stem ends in a block
    of nines. *)
Lemma rev_stem (prefix : string) (c : ascii) (n : nat) :
  rev (list_ascii_of_string (prefix ++ String c (chars "9" n)))
  = (repeat "9"%char n ++ c :: rev (list_ascii_of_string prefix))%list.
Proof.
  rewrite list_of_append. cbn [list_ascii_of_string].
  rewrite list_of_chars, rev_app_distr. cbn [rev].
  rewrite rev_repeat, <- app_assoc. reflexivity.
Qed.

(** A stem of nines only wraps to zeros. *)
Lemma increment_all_nines (n : nat) :
  increment_filename_stem_ordinal (chars "9" n) = chars "0" n.
Proof.
  unfold increment_filename_stem_ordinal.
  rewrite list_of_chars, rev_repeat.
  rewrite <- (app_nil_r (repeat "9"%char n)), increment_loop_nines.
  cbn [increment_loop]. rewrite app_nil_r, rev_repeat.
  apply string_of_repeat.
Qed.

(** A digit below nine is incremented and stops the carry. *)
Lemma increment_digit (prefix : string) (c : ascii) (n : nat) :
  (c <? "0")%char = false -> (c <? "9")%char = true ->
  increment_filename_stem_ordinal (prefix ++ String c (chars "9" n))
  = (prefix ++ String (ascii_of_N (N_of_ascii c + 1)) (chars "0" n))%string.
Proof.
  intros L0 L9. unfold increment_filename_stem_ordinal.
  rewrite rev_stem, increment_loop_nines. cbn [increment_loop].
  rewrite L0, L9. rewrite rev_app_distr. cbn [rev].
  rewrite rev_involutive, rev_repeat, <- app_assoc. cbn [app].
  rewrite string_of_app. cbn [string_of_list_ascii].
  rewrite string_of_list_ascii_of_string, string_of_repeat. reflexivity.
Qed.

(** A character that is not a decimal digit, met by the carry, aborts the
    increment: the result is the empty string. *)
Lemma increment_non_digit (prefix : string) (c : ascii) (n : nat) :
  (c <? "0")%char = true \/ ("9" <? c)%char = true ->
  increment_filename_stem_ordinal (prefix ++ String c (chars "9" n))
  = ""%string.
Proof.
  intro H. unfold increment_filename_stem_ordinal.
  rewrite rev_stem, increment_loop_nines. cbn [increment_loop].
  destruct H as [H|H].
  - rewrite H. reflexivity.
  - destruct (c <? "0")%char; [reflexivity|].
    assert (L9 : (c <? "9")%char = false).
    { revert H. unfold Ascii.ltb. rewrite (Ascii.compare_antisym c "9").
      destruct (Ascii.compare "9" c); cbn; congruence. }
    assert (E9 : (c =? "9")%char = false).
    { apply Ascii.eqb_neq. intro E. subst c. discriminate H. }
    rewrite L9, E9. reflexivity.
Qed.

(** ** The allocator on a directory *)

Lemma capture_wild_nonempty : Sim.wild_match "CAP???.*" "" = false.
Proof. reflexivity. Qed.

Lemma no_match_no_regular_match (entries : list FILINFO)
    (vol : Z * Z * FATFS) (wild : string) :
  (forall e, In e entries -> Sim.wild_match wild (fname e) = false) ->
  @regular_matches (SimFs entries vol) wild entries = [].
Proof.
  intro H. unfold regular_matches.
  induction entries as [|x entries IH]; cbn [filter map]; [reflexivity|].
  rewrite (H x (or_introl eq_refl)). cbn [andb].
  apply IH. intros e I. apply H. right. exact I.
Qed.

(** C2 — on a directory whose regular files matching [CAP???.*] are exactly
    [CAP000.BIN], [CAP001.BIN] and [CAP004.BIN], the allocator called with
    the pattern [CAP???] terminates and returns [CAP005], the increment of
    the greatest matching stem; on a directory with no matching entry it
    returns [CAP000], the pattern with every [?] replaced by [0]. *)
Theorem next_stem_follows_greatest (entries : list FILINFO)
    (vol : Z * Z * FATFS) (fuel : nat) :
  (List.length entries < fuel)%nat ->
  ((forall name,
      In name (@regular_matches (SimFs entries vol) "CAP???.*" entries) <->
      In name ["CAP000.BIN"; "CAP001.BIN"; "CAP004.BIN"]%string) ->
   @next_filename_stem_matching_pattern (SimFs entries vol) fuel "CAP???"
   = Some "CAP005"%string) /\
  ((forall e, In e entries -> Sim.wild_match "CAP???.*" (fname e) = false) ->
   @next_filename_stem_matching_pattern (SimFs entries vol) fuel "CAP???"
   = Some "CAP000"%string).
Proof.
  intro L. unfold next_filename_stem_matching_pattern.
  change ("CAP???" ++ ".*")%string with "CAP???.*"%string.
  split.
  - intro H.
    rewrite (find_last_greatest entries vol "CAP???.*" capture_wild_nonempty
               fuel "CAP004.BIN" L).
    + reflexivity.
    + apply H. cbn. auto.
    + intros name I. apply H in I. cbn in I.
      destruct I as [I|[I|[I|[]]]]; subst name; reflexivity.
  - intro H.
    rewrite (find_last_nothing entries vol "CAP???.*" capture_wild_nonempty
               fuel L
               (no_match_no_regular_match entries vol _ H)).
    reflexivity.
Qed.

(** C1 (as amended) — on a directory whose only regular file matching
    [CAP???.*] is [CAP999.BIN], the allocator called with [CAP???]
    terminates and returns the empty stem: the carry out of the three nines
    meets [P], which is not a decimal digit, and the increment aborts, as it
    does whenever the carry meets a character outside [0]..[9].  The stem
    of zeros is returned when the carry propagates past the leftmost
    character, that is when the stem consists of nines only. *)
Theorem carry_into_non_digit_gives_empty_stem (entries : list FILINFO)
    (vol : Z * Z * FATFS) (fuel : nat) :
  (List.length entries < fuel)%nat ->
  (forall name,
     In name (@regular_matches (SimFs entries vol) "CAP???.*" entries) <->
     name = "CAP999.BIN"%string) ->
  @next_filename_stem_matching_pattern (SimFs entries vol) fuel "CAP???"
  = Some ""%string /\
  (forall (prefix : string) (c : ascii) (n : nat),
     (c <? "0")%char = true \/ ("9" <? c)%char = true ->
     increment_filename_stem_ordinal (prefix ++ String c (chars "9" n))
     = ""%string) /\
  (forall n : nat,
     increment_filename_stem_ordinal (chars "9" n) = chars "0" n).
Proof.
  intros L H. split; [|split].
  - unfold next_filename_stem_matching_pattern.
    change ("CAP???" ++ ".*")%string with "CAP???.*"%string.
    rewrite (find_last_greatest entries vol "CAP???.*" capture_wild_nonempty
               fuel "CAP999.BIN" L).
    + reflexivity.
    + apply H. reflexivity.
    + intros name I. apply H in I. subst name. reflexivity.
  - exact increment_non_digit.
  - exact increment_all_nines.
Qed.

(* ================================================================= *)
(** * The properties on concrete media *)

(** C1 (as stated) fails: with [CAP999.BIN] as the only file and the
    pattern [CAP???], no amount of fuel makes the allocator return
    [CAP000]. *)
Lemma only_CAP999_is_not_wrapped :
  ~ exists fuel : nat,
      @next_filename_stem_matching_pattern (SimFs only_CAP999 no_volume)
        fuel "CAP???" = Some "CAP000"%string.
Proof.
  intros [fuel H]. destruct fuel as [|[|fuel]].
  - vm_compute in H. discriminate H.
  - vm_compute in H. discriminate H.
  - unfold next_filename_stem_matching_pattern in H.
    change ("CAP???" ++ ".*")%string with "CAP???.*"%string in H.
    rewrite (find_last_greatest only_CAP999 no_volume "CAP???.*"
               capture_wild_nonempty (S (S fuel)) "CAP999.BIN") in H.
    + vm_compute in H. discriminate H.
    + cbn. lia.
    + cbn. auto.
    + intros name I. cbn in I. destruct I as [I|[]]. subst name. reflexivity.
Qed.

Lemma carry_into_non_digit_gives_empty_stem_witness :
  (List.length only_CAP999 < 2)%nat /\
  @next_filename_stem_matching_pattern (SimFs only_CAP999 no_volume)
    2 "CAP???" = Some ""%string.
Proof.
  assert (L : (List.length only_CAP999 < 2)%nat) by (cbn; lia).
  split; [exact L|].
  refine (proj1 (carry_into_non_digit_gives_empty_stem
                   only_CAP999 no_volume 2 L _)).
  intro name. cbn. split.
  - intros [H|[]]. symmetry. exact H.
  - intro H. left. symmetry. exact H.
Defined.

Lemma next_stem_follows_greatest_witness :
  (List.length captures_0_1_4 < 6)%nat /\
  @next_filename_stem_matching_pattern (SimFs captures_0_1_4 no_volume)
    6 "CAP???" = Some "CAP005"%string /\
  @next_filename_stem_matching_pattern (SimFs [] no_volume)
    1 "CAP???" = Some "CAP000"%string.
Proof.
  assert (L : (List.length captures_0_1_4 < 6)%nat) by (cbn; lia).
  assert (L0 : (@List.length FILINFO [] < 1)%nat) by (cbn; lia).
  split; [exact L|]. split.
  - refine (proj1 (next_stem_follows_greatest
                     captures_0_1_4 no_volume 6 L) _).
    intro name. cbn. tauto.
  - refine (proj2 (next_stem_follows_greatest [] no_volume 1 L0) _).
    intros e [].
Defined.

(** Opening [A.TXT] with [out | ate] when the open succeeds and the seek to
    the end fails with [FR_NOT_READY] (3). *)
Lemma File_open_mode_and_ate_witness :
  @f_open demo (sim_file 10 100 [0; 3]) "A.TXT" 0x12
  = (0, sim_file 10 100 [3]) /\
  @File_ctor demo SimModes "A.TXT" 0x0A (demo_world 10 100 [0; 3] 77)
  = (tt, @mkWorld demo (@mkFile demo (sim_file 10 100 []) 3)
           [Call_open "A.TXT" 0x12; Call_lseek 10; Call_close]).
Proof.
  split; [reflexivity|].
  pose proof (@File_open_mode_and_ate demo SimModes
                (demo_world 10 100 [0; 3] 77) "A.TXT" 0x0A
                0 (sim_file 10 100 [3]) eq_refl) as [_ [_ H]].
  destruct (H eq_refl eq_refl 3 (sim_file 10 100 []) eq_refl) as [_ H3].
  apply H3. discriminate.
Defined.

(** A seek to offset 500 on a medium with room for 100 bytes: the driver
    clamps and reports success. *)
Lemma seek_contract_witness :
  @f_lseek demo (sim_file 10 100 []) 500 = (0, Sim.mkFil 100 100 100 []) /\
  @seek demo 500 (demo_world 10 100 [] 0)
  = (0, @mkWorld demo (@mkFile demo (Sim.mkFil 100 100 100 []) FR_BAD_SEEK)
          [Call_lseek 500; Call_close]).
Proof.
  split; [reflexivity|].
  pose proof (@seek_contract demo (demo_world 10 100 [] 0) 500
                0 (Sim.mkFil 100 100 100 []) eq_refl) as [_ H].
  destruct (H eq_refl) as [H1 [H2 _]].
  rewrite (surjective_pairing (@seek demo 500 (demo_world 10 100 [] 0))).
  rewrite H1, H2; [reflexivity | discriminate].
Defined.

Lemma sticky_error_is_terminal_witness :
  @err demo (this (demo_world 10 100 [] FR_EOF)) <> @FR_OK demo /\
  @run_ops demo [Op_read 4; Op_write [1; 2] 2; Op_sync]
    (demo_world 10 100 [] FR_EOF)
  = ([false; false; false], demo_world 10 100 [] FR_EOF).
Proof.
  assert (E : @err demo (this (demo_world 10 100 [] FR_EOF)) <> @FR_OK demo)
    by discriminate.
  split; [exact E|].
  apply (@sticky_error_is_terminal demo (demo_world 10 100 [] FR_EOF)
           4 [1; 2] [Op_read 4; Op_write [1; 2] 2; Op_sync] "" E).
Defined.

(** A read of 20 bytes from a file of 10, and a write of 200 bytes on a
    medium with room for 100. *)
Lemma short_transfer_is_an_error_witness :
  @f_read demo (sim_file 10 100 []) 20 = (0, 10, Sim.mkFil 10 10 100 []) /\
  @f_write demo (sim_file 10 100 []) [] 200
  = (0, 100, Sim.mkFil 100 100 100 []) /\
  @err demo (this (snd (@read demo 20 (demo_world 10 100 [] 0)))) = FR_EOF /\
  @err demo (this (snd (@write demo [] 200 (demo_world 10 100 [] 0))))
  = FR_DISK_FULL.
Proof.
  split; [reflexivity|]. split; [reflexivity|].
  pose proof (@short_transfer_is_an_error demo (demo_world 10 100 [] 0)
                20 200 [] 0 10 0 100 (Sim.mkFil 10 10 100 [])
                (Sim.mkFil 100 100 100 []) eq_refl eq_refl eq_refl)
    as [H1 [H2 _]].
  split; [apply H1 | apply H2]; discriminate.
Defined.

(** The text-put primitive fails with [-1] on a handle that already holds
    an error. *)
Lemma puts_contract_witness :
  size "hello" < 2 ^ 31 /\
  @f_puts demo "hello" (sim_file 10 100 [1]) = (-1, sim_file 10 100 []) /\
  fst (@puts demo "hello" (demo_world 10 100 [1] FR_EOF)) = false /\
  @err demo (this (snd (@puts demo "hello" (demo_world 10 100 [1] FR_EOF))))
  = FR_DISK_FULL /\
  @trace demo (snd (@puts demo "hello" (demo_world 10 100 [1] FR_EOF)))
  = [Call_puts "hello"].
Proof.
  assert (L : size "hello" < 2 ^ 31) by reflexivity.
  split; [exact L|]. split; [reflexivity|].
  pose proof (@puts_contract demo (demo_world 10 100 [1] FR_EOF) "hello"
                (-1) (sim_file 10 100 []) L eq_refl)
    as [H1 [_ [H3 [_ [H5 _]]]]].
  split; [apply H5; reflexivity|].
  split; [apply H3; discriminate | exact H1].
Defined.

(** Two bytes of room for a string of five. *)
Lemma puts_short_write_returns_true_witness :
  size "hello" < 2 ^ 32 /\
  @f_puts demo "hello" (Sim.mkFil 98 98 100 [])
  = (2, Sim.mkFil 100 100 100 []) /\
  0 <= 2 < size "hello" /\
  @puts demo "hello"
    (@mkWorld demo (@mkFile demo (Sim.mkFil 98 98 100 []) 0) [])
  = (true, @mkWorld demo (@mkFile demo (Sim.mkFil 100 100 100 [])
                            FR_DISK_FULL) [Call_puts "hello"]).
Proof.
  assert (L : size "hello" < 2 ^ 32) by reflexivity.
  assert (B : 0 <= 2 < size "hello") by (cbn; lia).
  split; [exact L|]. split; [reflexivity|]. split; [exact B|].
  exact (proj1 (@puts_short_write_returns_true demo
                  (@mkWorld demo (@mkFile demo (Sim.mkFil 98 98 100 []) 0) [])
                  "hello" 2 (Sim.mkFil 100 100 100 []) L eq_refl B)).
Defined.

(** The enumeration of a directory with one file. *)
Lemma enumerator_exhaustion_witness :
  @f_findfirst (SimFs only_CAP999 no_volume) "" "*.BIN"
  = (0, Sim.mkDir "*.BIN" [], file_entry "CAP999.BIN") /\
  @f_findfirst (SimFs only_CAP999 no_volume) "LOGS" "*.BIN"
  = (5, Sim.mkDir "*.BIN" [], Sim.no_entry) /\
  @directory_iterator_ctor (SimFs only_CAP999 no_volume) "LOGS" "*.BIN"
  = None /\
  @advance (SimFs only_CAP999 no_volume)
    (@directory_iterator_ctor (SimFs only_CAP999 no_volume) "" "*.BIN")
  = Some None.
Proof.
  split; [reflexivity|]. split; [reflexivity|].
  pose proof (@enumerator_exhaustion (SimFs only_CAP999 no_volume)
                "LOGS" "*.BIN"
                (@mkImpl (SimFs only_CAP999 no_volume)
                   (Sim.mkDir "*.BIN" []) (file_entry "CAP999.BIN"))
                5 0 (Sim.mkDir "*.BIN" []) (Sim.mkDir "*.BIN" [])
                Sim.no_entry Sim.no_entry eq_refl eq_refl)
    as [H1 [_ [[it' [A [X _]]] _]]].
  split.
  - specialize (H1 ltac:(discriminate)).
    destruct (@directory_iterator_ctor (SimFs only_CAP999 no_volume)
                "LOGS" "*.BIN"); [discriminate H1 | reflexivity].
  - change (@directory_iterator_ctor (SimFs only_CAP999 no_volume)
              "" "*.BIN")
      with (Some (@mkImpl (SimFs only_CAP999 no_volume)
                    (Sim.mkDir "*.BIN" []) (file_entry "CAP999.BIN"))).
    rewrite A. f_equal.
    destruct it' as [j|]; [|reflexivity].
    assert (T : @exhausted (SimFs only_CAP999 no_volume) (Some j) = true)
      by (apply X; right; reflexivity).
    discriminate T.
Defined.

(* ================================================================= *)
(** * Further properties of the file handle *)

Section HandleLife.
Context {D : FatFs} {O : OpenMode}.

Lemma has_lor (a b flag : Z) :
  has (Z.lor a b) flag = has a flag || has b flag.
Proof.
  unfold has. rewrite Z.land_lor_distr_l.
  destruct (Z.eqb_spec (Z.land a flag) 0) as [A|A];
    destruct (Z.eqb_spec (Z.land b flag) 0) as [B|B]; cbn;
    destruct (Z.eqb_spec (Z.lor (Z.land a flag) (Z.land b flag)) 0)
      as [L|L]; try reflexivity; exfalso.
  - apply L. apply Z.lor_eq_0_iff. auto.
  - apply Z.lor_eq_0_iff in L. tauto.
  - apply Z.lor_eq_0_iff in L. tauto.
  - apply Z.lor_eq_0_iff in L. tauto.
Qed.

Lemma byte_high_bits (x i : Z) : 0 <= x < 2 ^ 8 -> 8 <= i -> Z.testbit x i = false.
Proof.
  intros R I. rewrite <- (Z.mod_small x (2 ^ 8)) by exact R.
  apply Z.mod_pow2_bits_high. lia.
Qed.

(** X1 — the flags of a mode-set combine: the driver mode of a union of two
    mode-sets is the union of their driver modes, and a mode-set with none
    of [in], [out], [trunc], [ate] gives the driver mode 0. *)
Theorem fatfs_mode_of_union (m1 m2 : Z) :
  fatfs_mode_of (Z.lor m1 m2)
  = Z.lor (fatfs_mode_of m1) (fatfs_mode_of m2) /\
  (has m1 openmode_in = false -> has m1 openmode_out = false ->
   has m1 openmode_trunc = false -> has m1 openmode_ate = false ->
   fatfs_mode_of m1 = 0).
Proof.
  split.
  - apply Z.bits_inj'. intros i I. rewrite Z.lor_spec.
    destruct (Z_lt_le_dec i 8) as [L|L].
    + rewrite !fatfs_mode_bits by lia. rewrite !has_lor.
      destruct (has m1 openmode_in), (has m2 openmode_in),
        (has m1 openmode_out), (has m2 openmode_out),
        (has m1 openmode_trunc), (has m2 openmode_trunc),
        (has m1 openmode_ate), (has m2 openmode_ate);
        cbn [andb orb];
        destruct (Z.testbit FA_READ i), (Z.testbit FA_WRITE i),
          (Z.testbit FA_CREATE_ALWAYS i), (Z.testbit FA_OPEN_ALWAYS i);
        reflexivity.
    + rewrite !(byte_high_bits _ i) by (apply fatfs_mode_range || exact L).
      reflexivity.
  - intros A B C E. unfold fatfs_mode_of. rewrite A, B, C, E. reflexivity.
Qed.

(** The whole effect of the constructor, by the answers of the driver. *)
Lemma File_ctor_run (w : World) (filename : string) (mode r r2 : Z)
    (f1 f2 : FIL) :
  f_open (f (this w)) filename (fatfs_mode_of mode) = (r, f1) ->
  f_lseek f1 (f_size f1) = (r2, f2) ->
  File_ctor filename mode w =
    (tt,
     if (r =? FR_OK) && has mode openmode_ate then
       if r2 =? FR_OK then
         mkWorld (mkFile f2 r2)
           (trace w ++ [Call_open filename (fatfs_mode_of mode);
                        Call_lseek (f_size f1)])
       else
         mkWorld (mkFile (snd (f_close f2)) r2)
           (trace w ++ [Call_open filename (fatfs_mode_of mode);
                        Call_lseek (f_size f1); Call_close])
     else
       mkWorld (mkFile f1 r)
         (trace w ++ [Call_open filename (fatfs_mode_of mode)])).
Proof.
  intros R S.
  unfold File_ctor, bind, get_err, get_f, driver, set_err, when, ret.
  cbn. rewrite R. cbn.
  destruct (r =? FR_OK); cbn; [|reflexivity].
  destruct (has mode openmode_ate); cbn; [|reflexivity].
  rewrite S. cbn.
  destruct (r2 =? FR_OK); cbn.
  - rewrite <- app_assoc. reflexivity.
  - destruct (f_close f2) as [rc f3]. cbn.
    rewrite <- !app_assoc. reflexivity.
Qed.

Lemma File_dtor_run (w : World) :
  File_dtor w =
    (tt, mkWorld (mkFile (snd (f_close (f (this w)))) (err (this w)))
           (trace w ++ [Call_close])).
Proof.
  unfold File_dtor, bind, driver, ret. cbn.
  destruct (f_close (f (this w))) as [rc f']. reflexivity.
Qed.

Lemma closes_app (a b : list Call) :
  closes (a ++ b) = (closes a + closes b)%nat.
Proof. unfold closes. rewrite filter_app, length_app. reflexivity. Qed.

(** X2 — a handle that is constructed and then destroyed has its file closed
    once, by the destructor, whatever the outcome of the open; except that
    after a successful open whose seek to the end failed it is closed
    twice, by the constructor and again by the destructor. *)
Theorem lifetime_closes (w : World) (filename : string) (mode r r2 : Z)
    (f1 f2 : FIL) :
  f_open (f (this w)) filename (fatfs_mode_of mode) = (r, f1) ->
  f_lseek f1 (f_size f1) = (r2, f2) ->
  closes (trace (snd ((File_ctor filename mode ;;; File_dtor) w)))
  = (closes (trace w)
     + if (r =? FR_OK)%Z && has mode openmode_ate && negb (r2 =? FR_OK)%Z
       then 2 else 1)%nat.
Proof.
  intros R S. unfold bind at 1.
  rewrite (File_ctor_run w filename mode r r2 f1 f2 R S).
  rewrite File_dtor_run. cbn [snd trace this].
  destruct ((r =? FR_OK) && has mode openmode_ate); cbn [andb];
    [destruct (r2 =? FR_OK); cbn [negb]|];
    cbn [trace]; rewrite !closes_app; cbn; lia.
Qed.

(** X3 — a construction that ends with the sticky error set leaves nothing
    open: either the open itself failed and no other driver call was made,
    or the last driver call of the constructor is the close. *)
Theorem failed_construction_is_closed (w : World) (filename : string)
    (mode r : Z) (f1 : FIL) :
  f_open (f (this w)) filename (fatfs_mode_of mode) = (r, f1) ->
  err (this (snd (File_ctor filename mode w))) <> FR_OK ->
  (r <> FR_OK /\
   snd (File_ctor filename mode w)
   = mkWorld (mkFile f1 r)
       (trace w ++ [Call_open filename (fatfs_mode_of mode)])) \/
  (r = FR_OK /\
   exists tr, trace (snd (File_ctor filename mode w)) = tr ++ [Call_close]).
Proof.
  intros R. destruct (f_lseek f1 (f_size f1)) as [r2 f2] eqn:S.
  rewrite (File_ctor_run w filename mode r r2 f1 f2 R S). cbn [snd].
  destruct (Z.eqb_spec r FR_OK) as [E|E]; cbn [andb].
  - destruct (has mode openmode_ate).
    + destruct (Z.eqb_spec r2 FR_OK) as [E2|E2]; cbn; intro H.
      * contradiction.
      * right. split; [exact E|].
        exists (trace w ++ [Call_open filename (fatfs_mode_of mode);
                            Call_lseek (f_size f1)]).
        rewrite <- app_assoc. reflexivity.
    + cbn. intro H. contradiction.
  - cbn. intros _. left. split; [exact E | reflexivity].
Qed.

End HandleLife.

Section HandleSeries.
Context {D : FatFs} {O : OpenMode}.

(** One method on a failed handle. *)
Lemma refused_method (m : Method) (w : World) :
  err (this w) <> FR_OK ->
  refusal m (fst (run_method m w)) /\
  err (this (snd (run_method m w))) <> FR_OK /\
  trace (snd (run_method m w)) = trace w ++ puts_calls [m].
Proof.
  intro E. destruct m as [n|data n|p|s|]; cbn [run_method puts_calls];
    unfold bind.
  - rewrite (gated_noop (Op_read n) w E : read n w = _). cbn.
    rewrite app_nil_r. auto.
  - rewrite (gated_noop (Op_write data n) w E : write data n w = _). cbn.
    rewrite app_nil_r. auto.
  - assert (S : seek p w = (0, w)).
    { apply Z.eqb_neq in E. unfold seek, bind, get_err. rewrite E.
      reflexivity. }
    fold (@bind D) in S. rewrite S. cbn. rewrite app_nil_r. auto.
  - destruct (f_puts s (f (this w))) as [result f'] eqn:P.
    rewrite (puts_run w s result f' P). cbn.
    split; [eexists; reflexivity|]. split; [|reflexivity].
    destruct (result =? to_int (size s));
      [exact E | apply FR_DISK_FULL_not_OK].
  - rewrite (gated_noop Op_sync w E : sync w = _). cbn.
    rewrite app_nil_r. auto.
Qed.

Lemma puts_calls_cons (m : Method) (ms : list Method) :
  puts_calls (m :: ms) = puts_calls [m] ++ puts_calls ms.
Proof. destruct m; reflexivity. Qed.

(** A series of methods on a failed handle. *)
Lemma refused_series (ms : list Method) (w : World) :
  err (this w) <> FR_OK ->
  Forall2 refusal ms (fst (run_methods ms w)) /\
  err (this (snd (run_methods ms w))) <> FR_OK /\
  trace (snd (run_methods ms w)) = trace w ++ puts_calls ms.
Proof.
  revert w. induction ms as [|m ms IH]; intros w E; cbn [run_methods].
  - cbn. rewrite app_nil_r. auto.
  - unfold bind.
    destruct (refused_method m w E) as [R [E1 T1]].
    destruct (run_method m w) as [r w1]. cbn [fst snd] in R, E1, T1.
    destruct (IH w1 E1) as [Rs [E2 T2]].
    destruct (run_methods ms w1) as [rs w2]. cbn [fst snd] in Rs, E2, T2 |- *.
    unfold ret. cbn [fst snd].
    split; [constructor; assumption|]. split; [exact E2|].
    rewrite T2, T1, (puts_calls_cons m ms), app_assoc. reflexivity.
Qed.

(** X4 — once the sticky error is set it stays set, whatever methods follow in
    whatever order: [read], [write] and [sync] return false, [seek] returns
    0, and the only driver calls issued are the text-puts of the [puts]
    calls, in their order. *)
Theorem failed_handle_stays_failed (ms : list Method) (w : World) :
  err (this w) <> FR_OK ->
  Forall2 refusal ms (fst (run_methods ms w)) /\
  err (this (snd (run_methods ms w))) <> FR_OK /\
  trace (snd (run_methods ms w)) = trace w ++ puts_calls ms.
Proof. exact (refused_series ms w). Qed.

(** X5 — a short read or a short write disables the handle for [read],
    [write], [seek] and [sync], not for [puts]: after a [read] or a [write]
    for which the driver reports another count than the requested one, in
    every later series of methods each [read], [write] and [sync] returns
    false and each [seek] returns 0, without a driver call; each [puts]
    still calls the text-put of the driver, and what it returns is left
    open (it is true whenever the driver returns a result that is not
    negative); the sticky error
    stays set, and the driver sees nothing after the short transfer but
    these text-puts, in their order. *)
Theorem short_transfer_disables_handle (w : World) (n : Z) (data : list Z)
    (r k r' k' : Z) (f' f'' : FIL) (ms : list Method) :
  err (this w) = FR_OK ->
  f_read (f (this w)) n = (r, k, f') ->
  f_write (f (this w)) data n = (r', k', f'') ->
  (k <> n ->
   Forall2 refusal ms (fst (run_methods ms (snd (read n w)))) /\
   err (this (snd (run_methods ms (snd (read n w))))) <> FR_OK /\
   trace (snd (run_methods ms (snd (read n w))))
   = trace w ++ Call_read n :: puts_calls ms) /\
  (k' <> n ->
   Forall2 refusal ms (fst (run_methods ms (snd (write data n w)))) /\
   err (this (snd (run_methods ms (snd (write data n w))))) <> FR_OK /\
   trace (snd (run_methods ms (snd (write data n w))))
   = trace w ++ Call_write data n :: puts_calls ms).
Proof.
  intros E R W. split; intro N; apply Z.eqb_neq in N.
  - rewrite (read_run w n r k f' E R), N. cbn [snd].
    destruct (refused_series ms
                (mkWorld (mkFile f' FR_EOF) (trace w ++ [Call_read n])))
      as [Rs [E' T]]; [apply FR_EOF_not_OK|].
    split; [exact Rs|]. split; [exact E'|]. rewrite T. cbn [trace].
    rewrite <- app_assoc. reflexivity.
  - rewrite (write_run w data n r' k' f'' E W), N. cbn [snd].
    destruct (refused_series ms
                (mkWorld (mkFile f'' FR_DISK_FULL)
                   (trace w ++ [Call_write data n])))
      as [Rs [E' T]]; [apply FR_DISK_FULL_not_OK|].
    split; [exact Rs|]. split; [exact E'|]. rewrite T. cbn [trace].
    rewrite <- app_assoc. reflexivity.
Qed.

(** X6 — after a failed open the file is out of reach of [read], [write],
    [seek] and [sync], not of [puts]: in every series of methods after the
    constructor each [read], [write] and [sync] returns false and each
    [seek] returns 0, without a driver call; each [puts] still calls the
    text-put of the driver, on the file object that was never opened, and
    what it returns is left open (it is true whenever the driver returns a
    result that is not negative); the sticky error stays set, and the driver sees the open
    and then nothing but these text-puts, in their order. *)
Theorem failed_open_disables_handle (w : World) (filename : string)
    (mode r : Z) (f1 : FIL) (ms : list Method) :
  f_open (f (this w)) filename (fatfs_mode_of mode) = (r, f1) ->
  r <> FR_OK ->
  Forall2 refusal ms
    (fst (run_methods ms (snd (File_ctor filename mode w)))) /\
  err (this (snd (run_methods ms (snd (File_ctor filename mode w)))))
  <> FR_OK /\
  trace (snd (run_methods ms (snd (File_ctor filename mode w))))
  = trace w ++ Call_open filename (fatfs_mode_of mode) :: puts_calls ms.
Proof.
  intros R E. destruct (f_lseek f1 (f_size f1)) as [r2 f2] eqn:S.
  rewrite (File_ctor_run w filename mode r r2 f1 f2 R S).
  apply Z.eqb_neq in E. rewrite E. cbn [andb snd].
  apply Z.eqb_neq in E.
  destruct (refused_series ms
              (mkWorld (mkFile f1 r)
                 (trace w ++ [Call_open filename (fatfs_mode_of mode)])))
    as [Rs [E' T]]; [exact E|].
  split; [exact Rs|]. split; [exact E'|]. rewrite T. cbn [trace].
  rewrite <- app_assoc. reflexivity.
Qed.

(** X7 — a true return is a complete transfer: [read] and [write] return true
    only if the handle was sound, the driver reported success and exactly
    the requested count; [sync] only if the driver reported success. *)
Theorem true_means_complete (w : World) (n : Z) (data : list Z) :
  (fst (read n w) = true ->
   err (this w) = FR_OK /\
   exists f', f_read (f (this w)) n = (FR_OK, n, f') /\
     snd (read n w)
     = mkWorld (mkFile f' FR_OK) (trace w ++ [Call_read n])) /\
  (fst (write data n w) = true ->
   err (this w) = FR_OK /\
   exists f', f_write (f (this w)) data n = (FR_OK, n, f') /\
     snd (write data n w)
     = mkWorld (mkFile f' FR_OK) (trace w ++ [Call_write data n])) /\
  (fst (sync w) = true ->
   err (this w) = FR_OK /\
   exists f', f_sync (f (this w)) = (FR_OK, f') /\
     snd (sync w) = mkWorld (mkFile f' FR_OK) (trace w ++ [Call_sync])).
Proof.
  destruct (Z.eq_dec (err (this w)) FR_OK) as [E|E].
  - split; [|split].
    + destruct (f_read (f (this w)) n) as [[r k] f'] eqn:R.
      rewrite (read_run w n r k f' E R). cbn [fst snd].
      destruct (Z.eqb_spec k n) as [K|K]; intro T.
      * apply Z.eqb_eq in T. subst. split; [exact E|].
        exists f'. split; reflexivity.
      * apply Z.eqb_eq in T. exfalso. exact (FR_EOF_not_OK T).
    + destruct (f_write (f (this w)) data n) as [[r k] f'] eqn:R.
      rewrite (write_run w data n r k f' E R). cbn [fst snd].
      destruct (Z.eqb_spec k n) as [K|K]; intro T.
      * apply Z.eqb_eq in T. subst. split; [exact E|].
        exists f'. split; reflexivity.
      * apply Z.eqb_eq in T. exfalso. exact (FR_DISK_FULL_not_OK T).
    + destruct (f_sync (f (this w))) as [r f'] eqn:R.
      rewrite (sync_run w r f' E R). cbn [fst snd]. intro T.
      apply Z.eqb_eq in T. subst. split; [exact E|].
      exists f'. split; reflexivity.
  - split; [|split].
    + rewrite (gated_noop (Op_read n) w E : read n w = _). discriminate.
    + rewrite (gated_noop (Op_write data n) w E : write data n w = _).
      discriminate.
    + rewrite (gated_noop Op_sync w E : sync w = _). discriminate.
Qed.

End HandleSeries.

Section SeekProperties.
Context {D : FatFs}.

(** The whole effect of [seek] on a sound handle, by the answer of the
    driver. *)
Lemma seek_run (w : World) (p r : Z) (f1 : FIL) :
  err (this w) = FR_OK ->
  f_lseek (f (this w)) p = (r, f1) ->
  seek p w =
    (f_tell (f (this w)),
     if r =? FR_OK then
       if f_tell f1 =? p then
         mkWorld (mkFile f1 r) (trace w ++ [Call_lseek p])
       else
         mkWorld (mkFile (snd (f_close f1)) FR_BAD_SEEK)
           (trace w ++ [Call_lseek p; Call_close])
     else
       if f_tell (snd (f_close f1)) =? p then
         mkWorld (mkFile (snd (f_close f1)) r)
           (trace w ++ [Call_lseek p; Call_close])
       else
         mkWorld (mkFile (snd (f_close (snd (f_close f1)))) FR_BAD_SEEK)
           (trace w ++ [Call_lseek p; Call_close; Call_close])).
Proof.
  intros E S.
  unfold seek, bind, get_err, get_f, driver, set_err, when, ret.
  cbn. rewrite E, Z.eqb_refl. cbn. rewrite S. cbn.
  destruct (r =? FR_OK); cbn.
  - destruct (f_tell f1 =? p); cbn; [reflexivity|].
    destruct (f_close f1) as [rc f3]. cbn.
    rewrite <- app_assoc. reflexivity.
  - destruct (f_close f1) as [rc f3]. cbn.
    destruct (f_tell f3 =? p); cbn.
    + rewrite <- app_assoc. reflexivity.
    + destruct (f_close f3) as [rc' f4]. cbn.
      rewrite <- !app_assoc. reflexivity.
Qed.

(** X8 — a seek on a sound handle ends in one of two ways.  Either the handle
    is still sound, the file stands exactly at the requested offset and
    the only driver call was the seek; or the sticky error is set and the
    last driver call is a close.  There is no outcome in which the handle
    is sound at another position, or failed with the file left open. *)
Theorem seek_lands_or_closes (w : World) (p : Z) :
  err (this w) = FR_OK ->
  (err (this (snd (seek p w))) = FR_OK /\
   f_tell (f (this (snd (seek p w)))) = p /\
   trace (snd (seek p w)) = trace w ++ [Call_lseek p]) \/
  (err (this (snd (seek p w))) <> FR_OK /\
   exists tr, trace (snd (seek p w)) = tr ++ [Call_close]).
Proof.
  intro E. destruct (f_lseek (f (this w)) p) as [r f1] eqn:S.
  rewrite (seek_run w p r f1 E S). cbn [snd].
  destruct (Z.eqb_spec r FR_OK) as [R|R].
  - destruct (Z.eqb_spec (f_tell f1) p) as [T|T]; cbn.
    + left. auto.
    + right. split; [apply FR_BAD_SEEK_not_OK|].
      exists (trace w ++ [Call_lseek p]).
      rewrite <- app_assoc. reflexivity.
  - right. destruct (f_tell (snd (f_close f1)) =? p); cbn.
    + split; [exact R|]. exists (trace w ++ [Call_lseek p]).
      rewrite <- app_assoc. reflexivity.
    + split; [apply FR_BAD_SEEK_not_OK|].
      exists (trace w ++ [Call_lseek p; Call_close]).
      rewrite <- app_assoc. reflexivity.
Qed.

(** X9 — seeks chain: when a seek to [p] leaves the handle sound, the next
    seek returns [p] as the previous offset. *)
Theorem seek_returns_previous_target (w : World) (p q : Z) :
  err (this w) = FR_OK ->
  err (this (snd (seek p w))) = FR_OK ->
  fst (seek q (snd (seek p w))) = p.
Proof.
  intros E E'. destruct (f_lseek (f (this w)) p) as [r f1] eqn:S.
  revert E'. rewrite (seek_run w p r f1 E S). cbn [snd].
  destruct (Z.eqb_spec r FR_OK) as [R|R].
  - destruct (Z.eqb_spec (f_tell f1) p) as [T|T]; cbn [this err]; intro E'.
    + destruct (f_lseek f1 q) as [r' f1'] eqn:S'.
      rewrite (seek_run _ q r' f1'); [exact T | exact E' | exact S'].
    + exfalso. exact (FR_BAD_SEEK_not_OK E').
  - destruct (f_tell (snd (f_close f1)) =? p); cbn [this err]; intro E'.
    + contradiction.
    + exfalso. exact (FR_BAD_SEEK_not_OK E').
Qed.

End SeekProperties.

(* ================================================================= *)
(** * Further properties of [namespace std::filesystem] *)

Lemma switch_found (cases : list (Z * string)) (d : string) (k : Z)
    (v : string) :
  NoDup (map fst cases) -> In (k, v) cases -> switch cases d k = v.
Proof.
  induction cases as [|[l t] cases IH]; cbn [switch map fst In];
    intros N I; [destruct I|].
  inversion N as [|? ? NI N']; subst.
  destruct I as [I|I].
  - inversion I; subst. rewrite Z.eqb_refl. reflexivity.
  - destruct (Z.eqb_spec k l) as [E|E]; [|apply IH; assumption].
    subst l. exfalso. apply NI. apply (in_map fst _ _ I).
Qed.

Lemma switch_result (cases : list (Z * string)) (d : string) (k : Z) :
  (~ In k (map fst cases) /\ switch cases d k = d) \/
  In (k, switch cases d k) cases.
Proof.
  induction cases as [|[l t] cases IH]; cbn [switch map fst In].
  - left. tauto.
  - destruct (Z.eqb_spec k l) as [E|E].
    + right. left. subst. reflexivity.
    + destruct IH as [[NI S]|I].
      * left. split; [|exact S]. intros [H|H]; [congruence | contradiction].
      * right. right. exact I.
Qed.

Lemma result_names_label (cases : list (Z * string)) (a b : Z) (t : string) :
  NoDup (map snd cases) -> In (a, t) cases -> In (b, t) cases -> a = b.
Proof.
  induction cases as [|[l u] cases IH]; cbn [map snd In]; intros N A B;
    [destruct A|].
  inversion N as [|? ? NI N']; subst.
  destruct A as [A|A], B as [B|B].
  - congruence.
  - inversion A; subst. exfalso. apply NI. apply (in_map snd _ _ B).
  - inversion B; subst. exfalso. apply NI. apply (in_map snd _ _ A).
  - apply IH; assumption.
Qed.

Section ErrorTextProperties.
Context {D : FatFs} {C : ResultCodes}.

Lemma what_labels_distinct : NoDup (map fst what_cases).
Proof. exact case_labels_distinct. Qed.

Lemma what_texts_distinct : NoDup (map snd what_cases).
Proof.
  cbn [what_cases map snd].
  repeat (constructor; [cbn [In]; intuition discriminate|]). constructor.
Qed.

Lemma unknown_is_no_text : ~ In "unknown"%string (map snd what_cases).
Proof. cbn [what_cases map snd In]. intuition discriminate. Qed.

(** X10 — [what] describes each code it knows by a text of its own.  The text is
    empty exactly for [FR_OK]; it is [unknown] exactly for a code that is
    no case label; two codes with the same text other than [unknown] are
    the same code; and the three codes added by this layer have their own
    texts, none of them taken over by a native code. *)
Theorem what_names_the_code (e : Z) :
  (what e = ""%string <-> e = FR_OK) /\
  (what e = "unknown"%string <-> ~ In e (map fst what_cases)) /\
  (forall e', what e = what e' -> what e <> "unknown"%string -> e = e') /\
  what FR_EOF = "end of file"%string /\
  what FR_DISK_FULL = "disk full"%string /\
  what FR_BAD_SEEK = "bad seek"%string.
Proof.
  assert (K : forall x, what x <> "unknown"%string ->
                        In (x, what x) what_cases).
  { intros x U. destruct (switch_result what_cases "unknown" x) as [[_ S]|I].
    - contradiction.
    - exact I. }
  split; [|split; [|split; [|split; [|split]]]].
  - split.
    + intro W. apply (result_names_label what_cases e FR_OK "").
      * exact what_texts_distinct.
      * rewrite <- W. apply K. rewrite W. discriminate.
      * left. reflexivity.
    + intro E. subst e. unfold what, what_cases. cbn [switch].
      rewrite Z.eqb_refl. reflexivity.
  - split.
    + intros W I.
      destruct (switch_result what_cases "unknown" e) as [[NI _]|I'].
      * contradiction.
      * fold (what e) in I'. rewrite W in I'.
        apply unknown_is_no_text. apply (in_map snd _ _ I').
    + intro NI.
      destruct (switch_result what_cases "unknown" e) as [[_ S]|I'].
      * exact S.
      * exfalso. apply NI. apply (in_map fst _ _ I').
  - intros e' W U.
    apply (result_names_label what_cases e e' (what e)).
    + exact what_texts_distinct.
    + apply K. exact U.
    + rewrite W. apply K. rewrite <- W. exact U.
  - apply switch_found; [exact what_labels_distinct|].
    do 20 right. left. reflexivity.
  - apply switch_found; [exact what_labels_distinct|].
    do 21 right. left. reflexivity.
  - apply switch_found; [exact what_labels_distinct|].
    do 22 right. left. reflexivity.
Qed.

End ErrorTextProperties.

Section EnumeratorProperties.
Context {D : FatFs}.

(** X11 — an attribute other than the directory bit does not change the
    classification: with [a] free of the bits of [AM_DIR], an entry with
    the attributes [s | a] is a regular file exactly when one with [s]
    is.  (So is an entry without any attribute.) *)
Theorem regular_file_ignores_other_bits (s a : Z) :
  Z.land a AM_DIR = 0 ->
  is_regular_file (Z.lor s a) = is_regular_file s /\
  is_regular_file 0 = true.
Proof.
  intro A. unfold is_regular_file.
  rewrite Z.land_lor_distr_l, A, Z.lor_0_r, Z.land_0_l. split; reflexivity.
Qed.

(** X12 — the constructor does not look at the name it is given: when find-first
    succeeds with an empty name (no entry), the enumerator is not exhausted
    and stands on that empty entry.  An advance never does so: an
    enumerator that is still positioned after an advance stands on an entry
    with a name.  The empty entry is harmless to the scan for the last
    match, which it leaves unchanged. *)
Theorem empty_name_only_from_constructor (p wild : string) (d0 : DIR)
    (fi0 : FILINFO) (it : directory_iterator) :
  f_findfirst p wild = (FR_OK, d0, fi0) ->
  fname fi0 = ""%string ->
  directory_iterator_ctor p wild = Some (mkImpl d0 fi0) /\
  (forall j, advance it = Some (Some j) -> fname (filinfo j) <> ""%string) /\
  (forall last_match, keep_last fi0 last_match = last_match).
Proof.
  intros F N. split; [|split].
  - unfold directory_iterator_ctor. rewrite F, Z.eqb_refl. reflexivity.
  - intros j A. destruct it as [i|]; [|discriminate A].
    cbn [advance] in A.
    destruct (f_findnext (dir i) (filinfo i)) as [[r d] fi].
    destruct (negb (r =? FR_OK)); cbn [orb] in A; [discriminate A|].
    destruct (String.eqb_spec (fname fi) "") as [E|E]; [discriminate A|].
    inversion A. exact E.
  - intro last. unfold keep_last, path. rewrite N.
    destruct (is_regular_file (status fi0)); [|reflexivity].
    destruct last; reflexivity.
Qed.

Lemma advances_exhausted_only (it' : directory_iterator) :
  advances None it' -> it' = None.
Proof.
  intro A. inversion A as [|? ? ? S]; subst; [reflexivity | discriminate S].
Qed.

Lemma find_last_loop_exhausted (fuel : nat) (last : string) :
  find_last_loop fuel None last = Some last.
Proof. destruct fuel; reflexivity. Qed.

(** X13 — the scan of [find_last_file_matching_pattern] over an enumeration that
    the driver ends: it terminates, and it returns the greatest name, in
    the order of strings, among the initial value and the regular entries
    the enumerator stands on; never a name that is smaller than one of
    those, and never the name of a directory unless it was the initial
    value. *)
Theorem scan_returns_greatest_enumerated (it : directory_iterator)
    (last : string) :
  advances it None ->
  exists (r : string) (fuel0 : nat),
    (forall fuel, (fuel0 <= fuel)%nat ->
                  find_last_loop fuel it last = Some r) /\
    (r <? last)%string = false /\
    (forall i, advances it (Some i) ->
               is_regular_file (status (filinfo i)) = true ->
               (r <? fname (filinfo i))%string = false) /\
    (r = last \/
     exists i, advances it (Some i) /\
               is_regular_file (status (filinfo i)) = true /\
               r = fname (filinfo i)).
Proof.
  intro A. revert last.
  remember None as stop eqn:Stop.
  induction A as [it | it it1 it2 Adv A IH]; intro last; subst.
  - exists last, O. split; [|split; [|split]].
    + intros fuel _. apply find_last_loop_exhausted.
    + apply string_le_refl.
    + intros i B. apply advances_exhausted_only in B. discriminate B.
    + left. reflexivity.
  - destruct it as [i0|]; [|discriminate Adv].
    destruct (IH eq_refl (keep_last (filinfo i0) last))
      as [r [fuel0 [T [G [V K]]]]].
    exists r, (S fuel0). split; [|split; [|split]].
    + intros fuel L. destruct fuel as [|fuel]; [lia|].
      cbn [find_last_loop]. rewrite Adv. apply T. lia.
    + apply (string_le_trans last (keep_last (filinfo i0) last)).
      * apply keep_last_grows.
      * exact G.
    + intros i B R.
      inversion B as [|? it1' ? S' B']; subst.
      * apply (string_le_trans _ (keep_last (filinfo i) last)).
        -- apply keep_last_covers. exact R.
        -- exact G.
      * rewrite Adv in S'. inversion S'; subst. apply V; assumption.
    + destruct K as [K|[i [B [R K]]]].
      * destruct (keep_last_cases (filinfo i0) last) as [C|[R C]].
        -- left. congruence.
        -- right. exists i0. split; [apply advances_none|].
           split; [exact R | congruence].
      * right. exists i. split; [|auto].
        apply (advances_step _ it1); assumption.
Qed.

(** X14 — whatever the driver reports, no field of the snapshot reaches 4 GiB:
    the byte counts are computed in 32-bit arithmetic; and the free and
    available fields are equal on success and on failure alike. *)
Theorem space_fields_below_4GiB (p : string) :
  0 <= capacity (space p) < 2 ^ 32 /\
  0 <= free (space p) < 2 ^ 32 /\
  free (space p) = available (space p).
Proof.
  destruct (f_getfree p) as [[r fc] fs] eqn:G.
  rewrite (space_run p r fc fs G).
  destruct (r =? FR_OK); cbn [capacity free available].
  - unfold DWORD. split; [|split]; try reflexivity;
      apply Z.mod_pos_bound; lia.
  - lia.
Qed.

End EnumeratorProperties.

(* ================================================================= *)
(** * Further properties of the filename allocator *)

(** ** Strings *)

Lemma string_app_assoc (a b c : string) :
  ((a ++ b) ++ c)%string = (a ++ (b ++ c))%string.
Proof. induction a as [|x a IH]; cbn; [reflexivity|]. rewrite IH. reflexivity. Qed.

Lemma string_app_nil_r (a : string) : (a ++ "")%string = a.
Proof. induction a as [|x a IH]; cbn; [reflexivity|]. rewrite IH. reflexivity. Qed.

Lemma string_length_app (a b : string) :
  String.length (a ++ b) = (String.length a + String.length b)%nat.
Proof. induction a as [|x a IH]; cbn; [reflexivity|]. rewrite IH. reflexivity. Qed.

Lemma length_chars (c : ascii) (n : nat) : String.length (chars c n) = n.
Proof. induction n as [|n IH]; cbn; [reflexivity|]. rewrite IH. reflexivity. Qed.

Lemma substring_prefix (a b : string) :
  substring 0 (String.length a) (a ++ b) = a.
Proof.
  induction a as [|x a IH]; cbn.
  - destruct b; reflexivity.
  - rewrite IH. reflexivity.
Qed.

(** Two strings that part at one character compare as these characters
    do. *)
Lemma compare_after_common_prefix (pre : string) (c c' : ascii)
    (x y : string) :
  (N_of_ascii c < N_of_ascii c')%N ->
  ((pre ++ String c x) <? (pre ++ String c' y))%string = true.
Proof.
  intro L. unfold String.ltb.
  induction pre as [|a pre IH]; cbn [append String.compare].
  - unfold Ascii.compare. apply N.compare_lt_iff in L. rewrite L. reflexivity.
  - unfold Ascii.compare at 1. rewrite N.compare_refl. exact IH.
Qed.

(** ** [remove_filename_extension] *)

Lemma find_last_of_split (c : ascii) (s : string) (i : nat) :
  find_last_of c s = Some i ->
  exists ext,
    s = (substring 0 i s ++ String c ext)%string /\
    find_last_of c ext = None /\
    String.length (substring 0 i s) = i.
Proof.
  revert i. induction s as [|a s IH]; cbn [find_last_of]; intros i H;
    [discriminate H|].
  destruct (find_last_of c s) as [j|] eqn:F.
  - inversion H; subst i. destruct (IH j eq_refl) as [ext [E [N L]]].
    exists ext. cbn [substring append String.length].
    rewrite <- E, L. auto.
  - destruct (Ascii.eqb_spec a c) as [A|A]; [|discriminate H].
    inversion H; subst i a. exists s. cbn. auto.
Qed.

Lemma find_last_of_dotted (c : ascii) (stem ext : string) :
  find_last_of c ext = None ->
  find_last_of c (stem ++ String c ext) = Some (String.length stem).
Proof.
  intro N. induction stem as [|a stem IH];
    cbn [append find_last_of String.length].
  - rewrite N, Ascii.eqb_refl. reflexivity.
  - rewrite IH. reflexivity.
Qed.

(** X15 — removing the extension cuts the name at its last dot.  A name with a
    dot is its stem, the dot and an extension without a dot; a name without
    a dot is its own stem; conversely the stem of [stem.ext], for an
    extension without a dot, is [stem], whatever dots the stem has. *)
Theorem remove_extension_cuts_at_last_dot (filename stem ext : string) :
  (find_last_of "." filename = None ->
   remove_filename_extension filename = filename) /\
  (find_last_of "." filename <> None ->
   exists e,
     filename = (remove_filename_extension filename ++ String "." e)%string
     /\ find_last_of "." e = None) /\
  (find_last_of "." ext = None ->
   remove_filename_extension (stem ++ String "." ext) = stem).
Proof.
  split; [|split].
  - intro N. unfold remove_filename_extension. rewrite N. reflexivity.
  - intro S. unfold remove_filename_extension.
    destruct (find_last_of "." filename) as [i|] eqn:F; [|contradiction].
    destruct (find_last_of_split "." filename i F) as [e [E [N _]]].
    exists e. auto.
  - intro N. unfold remove_filename_extension.
    rewrite (find_last_of_dotted "." stem ext N).
    apply substring_prefix.
Qed.

(** The helper form used below. *)
Lemma stem_of_dotted (stem ext : string) :
  find_last_of "." ext = None ->
  remove_filename_extension (stem ++ String "." ext) = stem.
Proof.
  intro N. unfold remove_filename_extension.
  rewrite (find_last_of_dotted "." stem ext N). apply substring_prefix.
Qed.

Lemma stem_is_prefix (filename : string) :
  exists rest, filename = (remove_filename_extension filename ++ rest)%string.
Proof.
  unfold remove_filename_extension.
  destruct (find_last_of "." filename) as [i|] eqn:F.
  - destruct (find_last_of_split "." filename i F) as [e [E _]].
    exists (String "." e). exact E.
  - exists ""%string. symmetry. apply string_app_nil_r.
Qed.

(** ** [increment_filename_stem_ordinal] *)

Lemma ascii_ltb_lt (a b : ascii) :
  (a <? b)%char = true <-> (N_of_ascii a < N_of_ascii b)%N.
Proof.
  unfold Ascii.ltb, Ascii.compare. rewrite <- N.compare_lt_iff.
  destruct (N_of_ascii a ?= N_of_ascii b)%N; split; congruence.
Qed.

Lemma ascii_ltb_ge (a b : ascii) :
  (a <? b)%char = false <-> (N_of_ascii b <= N_of_ascii a)%N.
Proof.
  rewrite <- not_true_iff_false, ascii_ltb_lt. lia.
Qed.

Lemma N_of_ascii_bound (c : ascii) : (N_of_ascii c < 256)%N.
Proof. apply N_ascii_bounded. Qed.

Lemma N_of_ascii_inj (a b : ascii) : N_of_ascii a = N_of_ascii b -> a = b.
Proof.
  intro H. rewrite <- (ascii_N_embedding a), <- (ascii_N_embedding b), H.
  reflexivity.
Qed.

Lemma is_digit_range (c : ascii) :
  is_digit c = true <-> (48 <= N_of_ascii c <= 57)%N.
Proof.
  unfold is_digit. rewrite andb_true_iff, !negb_true_iff, !ascii_ltb_ge.
  change (N_of_ascii "0") with 48%N. change (N_of_ascii "9") with 57%N.
  lia.
Qed.

Lemma next_digit (c : ascii) :
  (N_of_ascii c < 255)%N ->
  N_of_ascii (ascii_of_N (N_of_ascii c + 1)) = (N_of_ascii c + 1)%N.
Proof. intro H. apply N_ascii_embedding. lia. Qed.

Lemma pow10_succ (n : nat) : 10 ^ Z.of_nat (S n) = 10 * 10 ^ Z.of_nat n.
Proof. rewrite Nat2Z.inj_succ, Z.pow_succ_r by lia. reflexivity. Qed.

Lemma pow10_pos (n : nat) : 0 < 10 ^ Z.of_nat n.
Proof. apply Z.pow_pos_nonneg; lia. Qed.

Lemma digit_value_range (c : ascii) :
  is_digit c = true -> 0 <= digit_value c <= 9.
Proof. rewrite is_digit_range. unfold digit_value. lia. Qed.

Lemma value_bound (r : list ascii) :
  forallb is_digit r = true ->
  0 <= value_from_last r < 10 ^ Z.of_nat (List.length r).
Proof.
  induction r as [|c r IH]; cbn [forallb value_from_last List.length].
  - intros _. cbn. lia.
  - rewrite andb_true_iff. intros [C R].
    pose proof (digit_value_range c C). specialize (IH R).
    rewrite pow10_succ. lia.
Qed.

Lemma increment_loop_length (r r' : list ascii) :
  increment_loop r = Some r' -> List.length r' = List.length r.
Proof.
  revert r'. induction r as [|c r IH]; cbn [increment_loop]; intros r' H.
  - inversion H. reflexivity.
  - destruct (c <? "0")%char; [discriminate H|].
    destruct (c <? "9")%char.
    + inversion H. reflexivity.
    + destruct (c =? "9")%char; [|discriminate H].
      destruct (increment_loop r) as [r1|]; [|discriminate H].
      inversion H. cbn. rewrite (IH r1 eq_refl). reflexivity.
Qed.

(** On digits the loop adds one, modulo the width. *)
Lemma increment_loop_value (r : list ascii) :
  forallb is_digit r = true ->
  exists r',
    increment_loop r = Some r' /\
    forallb is_digit r' = true /\
    value_from_last r'
    = (value_from_last r + 1) mod 10 ^ Z.of_nat (List.length r).
Proof.
  induction r as [|c r IH]; cbn [forallb].
  - intros _. exists []. cbn. auto.
  - rewrite andb_true_iff. intros [C R].
    pose proof (is_digit_range c) as DR. apply DR in C as C'.
    pose proof (value_bound r R) as VB.
    cbn [increment_loop value_from_last List.length].
    rewrite pow10_succ.
    assert (L0 : (c <? "0")%char = false).
    { apply ascii_ltb_ge. change (N_of_ascii "0") with 48%N. lia. }
    rewrite L0.
    destruct (c <? "9")%char eqn:L9.
    + apply ascii_ltb_lt in L9. change (N_of_ascii "9") with 57%N in L9.
      exists (ascii_of_N (N_of_ascii c + 1) :: r).
      assert (ND : N_of_ascii (ascii_of_N (N_of_ascii c + 1))
                   = (N_of_ascii c + 1)%N) by (apply next_digit; lia).
      split; [reflexivity|]. split.
      * cbn [forallb]. rewrite R, andb_true_r. apply is_digit_range. lia.
      * cbn [value_from_last]. unfold digit_value. rewrite ND.
        rewrite Z.mod_small; unfold digit_value; lia.
    + apply ascii_ltb_ge in L9. change (N_of_ascii "9") with 57%N in L9.
      assert (E9 : c = "9"%char).
      { apply N_of_ascii_inj. change (N_of_ascii "9") with 57%N. lia. }
      subst c. change ("9" =? "9")%char with true. cbn iota.
      destruct (IH R) as [r1 [I [D1 V]]]. rewrite I.
      exists ("0"%char :: r1). split; [reflexivity|]. split.
      * cbn [forallb]. rewrite D1. reflexivity.
      * cbn [value_from_last]. rewrite V.
        change (digit_value "0") with 0. change (digit_value "9") with 9.
        replace (9 + 10 * value_from_last r + 1)
          with (10 * (value_from_last r + 1)) by lia.
        pose proof (pow10_pos (List.length r)).
        rewrite Z.mul_mod_distr_l by lia. lia.
Qed.

Lemma forallb_rev {A} (p : A -> bool) (l : list A) :
  forallb p (rev l) = forallb p l.
Proof.
  induction l as [|x l IH]; cbn [rev forallb]; [reflexivity|].
  rewrite forallb_app, IH. cbn. rewrite andb_true_r. apply andb_comm.
Qed.

Lemma length_list_of_string (s : string) :
  List.length (list_ascii_of_string s) = String.length s.
Proof. induction s as [|c s IH]; cbn; [reflexivity|]. rewrite IH. reflexivity. Qed.

Lemma length_string_of_list (l : list ascii) :
  String.length (string_of_list_ascii l) = List.length l.
Proof. induction l as [|c l IH]; cbn; [reflexivity|]. rewrite IH. reflexivity. Qed.

(** X16 — on a stem of decimal digits the increment is the successor of the
    number, modulo the width: the result has the same length, consists of
    digits, and denotes the number of the stem plus one, reduced modulo 10
    to the power of the length. *)
Theorem increment_adds_one (s : string) :
  all_digits s = true ->
  String.length (increment_filename_stem_ordinal s) = String.length s /\
  all_digits (increment_filename_stem_ordinal s) = true /\
  decimal (increment_filename_stem_ordinal s)
  = (decimal s + 1) mod 10 ^ Z.of_nat (String.length s).
Proof.
  intro A. unfold all_digits in A.
  rewrite <- forallb_rev in A.
  destruct (increment_loop_value _ A) as [r' [I [D' V]]].
  pose proof (increment_loop_length _ _ I) as L.
  rewrite length_rev, length_list_of_string in L, V.
  unfold increment_filename_stem_ordinal, all_digits, decimal. rewrite I.
  rewrite length_string_of_list, length_rev.
  rewrite list_ascii_of_string_of_list_ascii, rev_involutive, forallb_rev.
  auto.
Qed.

Lemma increment_length_cases (s : string) :
  increment_filename_stem_ordinal s = ""%string \/
  String.length (increment_filename_stem_ordinal s) = String.length s.
Proof.
  unfold increment_filename_stem_ordinal.
  destruct (increment_loop (rev (list_ascii_of_string s))) as [r'|] eqn:I.
  - right. rewrite length_string_of_list, length_rev.
    rewrite (increment_loop_length _ _ I), length_rev.
    apply length_list_of_string.
  - left. reflexivity.
Qed.

(** X17 — whatever the stem, the increment returns either the empty string or a
    string of the same length as the stem: it never widens or shortens the
    counter. *)
Theorem increment_keeps_length (s : string) :
  increment_filename_stem_ordinal s = ""%string \/
  String.length (increment_filename_stem_ordinal s) = String.length s.
Proof. exact (increment_length_cases s). Qed.

(** Every stem is a block of nines, or ends in a block of nines after a
    character that is not a nine. *)
Lemma ends_in_nines (s : string) :
  s = chars "9" (String.length s) \/
  exists pre c n, s = (pre ++ String c (chars "9" n))%string /\ c <> "9"%char.
Proof.
  induction s as [|a s IH].
  - left. reflexivity.
  - destruct IH as [N|[pre [c [n [E C]]]]].
    + destruct (Ascii.eqb_spec a "9") as [A|A].
      * left. subst a. cbn. rewrite <- N. reflexivity.
      * right. exists ""%string, a, (String.length s). cbn.
        rewrite <- N. auto.
    + right. exists (String a pre), c, n. cbn. rewrite <- E. auto.
Qed.

(** The three ways an increment ends. *)
Lemma increment_cases (s : string) :
  (s = chars "9" (String.length s) /\
   increment_filename_stem_ordinal s = chars "0" (String.length s)) \/
  (exists pre c n,
     s = (pre ++ String c (chars "9" n))%string /\
     ((c <? "0")%char = false /\ (c <? "9")%char = true) /\
     (N_of_ascii c < N_of_ascii (ascii_of_N (N_of_ascii c + 1)))%N /\
     increment_filename_stem_ordinal s
     = (pre ++ String (ascii_of_N (N_of_ascii c + 1)) (chars "0" n))%string)
  \/
  (exists pre c n,
     s = (pre ++ String c (chars "9" n))%string /\
     is_digit c = false /\
     increment_filename_stem_ordinal s = ""%string).
Proof.
  destruct (ends_in_nines s) as [N|[pre [c [n [E C]]]]].
  - left. split; [exact N|]. rewrite N at 1. apply increment_all_nines.
  - right. destruct (is_digit c) eqn:Dg.
    + left. exists pre, c, n.
      apply is_digit_range in Dg as R.
      assert (R9 : (N_of_ascii c < 57)%N).
      { destruct (N.eq_dec (N_of_ascii c) 57) as [Q|Q]; [|lia].
        exfalso. apply C. apply N_of_ascii_inj. exact Q. }
      assert (L0 : (c <? "0")%char = false).
      { apply ascii_ltb_ge. change (N_of_ascii "0") with 48%N. lia. }
      assert (L9 : (c <? "9")%char = true).
      { apply ascii_ltb_lt. change (N_of_ascii "9") with 57%N. lia. }
      split; [exact E|]. split; [auto|]. split.
      * rewrite next_digit by lia. lia.
      * rewrite E. apply increment_digit; assumption.
    + right. exists pre, c, n. split; [exact E|]. split; [exact Dg|].
      rewrite E. apply increment_non_digit.
      unfold is_digit in Dg. apply andb_false_iff in Dg.
      rewrite !negb_false_iff in Dg. exact Dg.
Qed.

Lemma all_digits_app (a b : string) :
  all_digits (a ++ b) = all_digits a && all_digits b.
Proof. unfold all_digits. rewrite list_of_append. apply forallb_app. Qed.

(** X18 — a counter that does not overflow leaves what stands before it alone:
    for digits [ds] that are not all nines, the increment of [pre ++ ds]
    is [pre] followed by the increment of [ds], whatever [pre] is. *)
Theorem increment_keeps_prefix (pre ds : string) :
  all_digits ds = true ->
  ds <> chars "9" (String.length ds) ->
  increment_filename_stem_ordinal (pre ++ ds)
  = (pre ++ increment_filename_stem_ordinal ds)%string.
Proof.
  intros A N.
  destruct (increment_cases ds)
    as [[E _]|[[p [c [n [E [[L0 L9] [_ I]]]]]]|[p [c [n [E [Dg _]]]]]]].
  - contradiction.
  - rewrite I. rewrite E. rewrite <- !string_app_assoc.
    apply increment_digit; assumption.
  - exfalso. rewrite E, all_digits_app in A.
    apply andb_true_iff in A. destruct A as [_ A].
    unfold all_digits in A. cbn [list_ascii_of_string forallb] in A.
    rewrite Dg in A. discriminate A.
Qed.

Lemma incremented_name_is_greater (s x y : string) :
  increment_filename_stem_ordinal s <> ""%string ->
  increment_filename_stem_ordinal s
  <> chars "0" (String.length (increment_filename_stem_ordinal s)) ->
  String.length (increment_filename_stem_ordinal s) = String.length s /\
  (s <? increment_filename_stem_ordinal s)%string = true /\
  ((s ++ x) <? (increment_filename_stem_ordinal s ++ y))%string = true.
Proof.
  intros NE NZ.
  destruct (increment_length_cases s) as [Z0|L]; [contradiction|].
  split; [exact L|].
  destruct (increment_cases s)
    as [[E I]|[[p [c [n [E [_ [Lt I]]]]]]|[p [c [n [_ [_ I]]]]]]].
  - exfalso. apply NZ. rewrite L. exact I.
  - rewrite I. rewrite E at 1 2. split.
    + apply compare_after_common_prefix. exact Lt.
    + rewrite !string_app_assoc. cbn [append].
      apply compare_after_common_prefix. exact Lt.
  - contradiction.
Qed.

(** X19 — when the increment returns a stem that is neither empty nor all zeros,
    that stem has the length of the old one and comes after it in the order
    of strings, and every name that begins with it comes after every name
    that begins with the old stem. *)
Theorem increment_is_greater (s x y : string) :
  increment_filename_stem_ordinal s <> ""%string ->
  increment_filename_stem_ordinal s
  <> chars "0" (String.length (increment_filename_stem_ordinal s)) ->
  String.length (increment_filename_stem_ordinal s) = String.length s /\
  (s <? increment_filename_stem_ordinal s)%string = true /\
  ((s ++ x) <? (increment_filename_stem_ordinal s ++ y))%string = true.
Proof. exact (incremented_name_is_greater s x y). Qed.

(** ** The seed *)

Lemma replace_without (old new : ascii) (s : string) :
  ~ In old (list_ascii_of_string s) -> replace old new s = s.
Proof.
  induction s as [|c s IH]; cbn [list_ascii_of_string In replace];
    intro N; [reflexivity|].
  destruct (Ascii.eqb_spec c old) as [E|E]; [tauto|].
  rewrite IH by tauto. reflexivity.
Qed.

Lemma replace_removes (old new : ascii) (s : string) :
  new <> old -> ~ In old (list_ascii_of_string (replace old new s)).
Proof.
  intro N. induction s as [|c s IH]; cbn [replace list_ascii_of_string In];
    [tauto|].
  destruct (Ascii.eqb_spec c old) as [E|E]; tauto.
Qed.

Lemma replace_length (old new : ascii) (s : string) :
  String.length (replace old new s) = String.length s.
Proof.
  induction s as [|c s IH]; cbn; [reflexivity|]. rewrite IH. reflexivity.
Qed.

(** X20 — [std::replace] as the seed uses it: the result has the length of the
    pattern and, for a replacement other than the placeholder, no
    placeholder is left in it; a pattern without a placeholder is returned
    as it is; and replacing twice is replacing once. *)
Theorem replace_leaves_no_placeholder (old new : ascii) (s : string) :
  String.length (replace old new s) = String.length s /\
  (new <> old -> ~ In old (list_ascii_of_string (replace old new s))) /\
  (~ In old (list_ascii_of_string s) -> replace old new s = s) /\
  replace old new (replace old new s) = replace old new s.
Proof.
  split; [|split; [|split]].
  - apply replace_length.
  - apply replace_removes.
  - apply replace_without.
  - destruct (Ascii.eqb_spec new old) as [E|E].
    + subst new. induction s as [|c s IH]; cbn [replace]; [reflexivity|].
      rewrite IH. destruct (Ascii.eqb_spec c old) as [C|C].
      * rewrite Ascii.eqb_refl. reflexivity.
      * apply Ascii.eqb_neq in C. rewrite C. reflexivity.
    + apply replace_without. apply replace_removes. exact E.
Qed.

(** ** The allocator on a directory of the simulated driver *)

Lemma stem_wild_nonempty (pat : string) :
  Sim.wild_match (pat ++ ".*") "" = false.
Proof.
  induction pat as [|c pat IH]; cbn [append Sim.wild_match].
  - reflexivity.
  - destruct (c =? "*")%char.
    + rewrite IH. reflexivity.
    + reflexivity.
Qed.

Lemma greatest_exists (l : list string) :
  l <> [] ->
  exists g, In g l /\ forall x, In x l -> (g <? x)%string = false.
Proof.
  induction l as [|a l IH]; intro N; [congruence|].
  destruct l as [|b l].
  - exists a. split; [left; reflexivity|].
    intros x [X|[]]. subst x. apply string_le_refl.
  - destruct IH as [g [I M]]; [discriminate|].
    destruct (g <? a)%string eqn:G.
    + exists a. split; [left; reflexivity|].
      intros x [X|X].
      * subst x. apply string_le_refl.
      * apply (string_le_trans x g a).
        -- apply M. exact X.
        -- apply string_lt_le. exact G.
    + exists g. split; [right; exact I|].
      intros x [X|X]; [subst x; exact G | apply M; exact X].
Qed.

Section OnDirectory.
Variable vol : Z * Z * FATFS.
Variable pat : string.

Local Notation "'rm' d" :=
  (@regular_matches (SimFs d vol) (pat ++ ".*") d) (at level 10).
Local Notation "'next' d" :=
  (@next_filename_stem_matching_pattern (SimFs d vol)) (at level 10).

Lemma next_from_greatest (entries : list FILINFO) (fuel : nat)
    (g : string) :
  (List.length entries < fuel)%nat ->
  In g (rm entries) ->
  (forall name, In name (rm entries) -> (g <? name)%string = false) ->
  remove_filename_extension g <> ""%string ->
  next entries fuel pat
  = Some (increment_filename_stem_ordinal (remove_filename_extension g)).
Proof.
  intros L G M NE. unfold next_filename_stem_matching_pattern.
  rewrite (find_last_greatest entries vol (pat ++ ".*")
             (stem_wild_nonempty pat) fuel g L G M).
  apply String.eqb_neq in NE. rewrite NE. reflexivity.
Qed.

Lemma next_from_nothing (entries : list FILINFO) (fuel : nat) :
  (List.length entries < fuel)%nat ->
  rm entries = [] ->
  next entries fuel pat = Some (replace "?" "0" pat).
Proof.
  intros L N. unfold next_filename_stem_matching_pattern.
  rewrite (find_last_nothing entries vol (pat ++ ".*")
             (stem_wild_nonempty pat) fuel L N).
  reflexivity.
Qed.

(** X21 — the first name ever: on a directory without a regular file matching
    [pattern.*], the allocator terminates and returns the pattern with
    every [?] replaced by [0], for every pattern and every such directory
    (sub-directories that match do not count). *)
Theorem allocator_seeds_from_pattern (entries : list FILINFO) (fuel : nat) :
  (List.length entries < fuel)%nat ->
  rm entries = [] ->
  next entries fuel pat = Some (replace "?" "0" pat) /\
  String.length (replace "?" "0" pat) = String.length pat /\
  ~ In "?"%char (list_ascii_of_string (replace "?" "0" pat)).
Proof.
  intros L N. split; [exact (next_from_nothing entries fuel L N)|].
  split.
  - apply replace_length.
  - apply replace_removes. discriminate.
Qed.

(** X22 — the last match on a directory: for every wildcard [pattern.*] and
    every directory, the scan terminates with the greatest name among the
    regular files that match, or with the empty string when there is
    none. *)
Theorem last_match_on_directory (entries : list FILINFO) (fuel : nat) :
  (List.length entries < fuel)%nat ->
  exists r,
    @find_last_file_matching_pattern (SimFs entries vol) fuel (pat ++ ".*")
    = Some r /\
    ((rm entries = [] /\ r = ""%string) \/
     (In r (rm entries) /\
      forall name, In name (rm entries) -> (r <? name)%string = false)).
Proof.
  intro L. destruct (rm entries) as [|a l] eqn:R.
  - exists ""%string. split; [|left; auto].
    apply (find_last_nothing entries vol (pat ++ ".*")
             (stem_wild_nonempty pat) fuel L R).
  - destruct (greatest_exists (a :: l)) as [g [I M]]; [discriminate|].
    exists g. split; [|right; auto].
    apply (find_last_greatest entries vol (pat ++ ".*")
             (stem_wild_nonempty pat) fuel g L); rewrite R; assumption.
Qed.

(** What the allocator returns when it increments a digit: the greatest
    regular match begins with a stem [pre c 9..9] and the result is
    [pre c' 0..0] with [c'] the character after [c]. *)
Lemma allocator_digit_case (entries : list FILINFO) (fuel : nat)
    (s : string) :
  (List.length entries < fuel)%nat ->
  (forall name, In name (rm entries) ->
                remove_filename_extension name <> ""%string) ->
  rm entries <> [] ->
  next entries fuel pat = Some s ->
  s <> ""%string ->
  s <> chars "0" (String.length s) ->
  exists g rest,
    In g (rm entries) /\
    (forall name, In name (rm entries) -> (g <? name)%string = false) /\
    g = (remove_filename_extension g ++ rest)%string /\
    s = increment_filename_stem_ordinal (remove_filename_extension g).
Proof.
  intros L H NE R S0 SZ.
  destruct (greatest_exists (rm entries) NE) as [g [I M]].
  rewrite (next_from_greatest entries fuel g L I M (H g I)) in R.
  inversion R as [R']. destruct (stem_is_prefix g) as [rest P].
  exists g, rest. auto.
Qed.

(** X23 — no collision: when the allocator returns a stem that is neither empty
    nor all zeros, no regular file of the directory that matches
    [pattern.*] has a name beginning with that stem; in particular none has
    that stem.  (Stems of matching files are taken to be non-empty.) *)
Theorem allocated_stem_is_unused (entries : list FILINFO) (fuel : nat)
    (s : string) :
  (List.length entries < fuel)%nat ->
  (forall name, In name (rm entries) ->
                remove_filename_extension name <> ""%string) ->
  next entries fuel pat = Some s ->
  s <> ""%string ->
  s <> chars "0" (String.length s) ->
  forall name, In name (rm entries) ->
    (forall t, name <> (s ++ t)%string) /\
    remove_filename_extension name <> s.
Proof.
  intros L H R S0 SZ name I.
  assert (NE : rm entries <> []) by (intro E; rewrite E in I; destruct I).
  destruct (allocator_digit_case entries fuel s L H NE R S0 SZ)
    as [g [rest [G [M [P Inc]]]]].
  assert (A : forall t, name <> (s ++ t)%string).
  { intros t E. subst name s.
    destruct (incremented_name_is_greater (remove_filename_extension g) rest t
                S0 SZ) as [_ [_ Gt]].
    rewrite <- P in Gt. rewrite (M _ I) in Gt. discriminate Gt. }
  split; [exact A|].
  intro E. destruct (stem_is_prefix name) as [t T].
  rewrite E in T. exact (A t T).
Qed.

End OnDirectory.

Section Consecutive.
Variable vol : Z * Z * FATFS.
Variable pat : string.

Lemma regular_matches_insert (X Y d1 d2 : list FILINFO) (e : FILINFO)
    (wild name : string) :
  Sim.wild_match wild (fname e) = true ->
  @is_regular_file (SimFs X vol) (status e) = true ->
  In name (@regular_matches (SimFs Y vol) wild (d1 ++ e :: d2)) <->
  name = fname e \/ In name (@regular_matches (SimFs X vol) wild (d1 ++ d2)).
Proof.
  intros W R.
  change (@regular_matches (SimFs Y vol) wild (d1 ++ e :: d2))
    with (@regular_matches (SimFs X vol) wild (d1 ++ e :: d2)).
  unfold regular_matches. rewrite !filter_app, !map_app, !in_app_iff.
  cbn [filter]. rewrite W, R. cbn [andb map In]. intuition congruence.
Qed.

(** X24 — allocations follow one another, on a directory in which every
    regular file matching [pattern.*] has a non-empty stem: when the
    allocator returned a non-empty stem [s], not all zeros unless the
    directory had no regular match, and a regular file named [s.ext], with
    an extension without a dot and matching [pattern.*], is then added
    anywhere in the directory, the next allocation terminates and returns
    the increment of [s].  (Without the condition on the stems this fails:
    with the pattern [*] and the only file [.ZZZ] the seed [*] is returned
    again.) *)
Theorem allocations_follow_one_another (d1 d2 : list FILINFO) (e : FILINFO)
    (s ext : string) (fuel fuel' : nat) :
  (List.length (d1 ++ d2) < fuel)%nat ->
  (List.length (d1 ++ e :: d2) < fuel')%nat ->
  (forall name,
     In name (@regular_matches (SimFs (d1 ++ d2) vol) (pat ++ ".*")
                (d1 ++ d2)) ->
     remove_filename_extension name <> ""%string) ->
  @next_filename_stem_matching_pattern (SimFs (d1 ++ d2) vol) fuel pat
  = Some s ->
  s <> ""%string ->
  (@regular_matches (SimFs (d1 ++ d2) vol) (pat ++ ".*") (d1 ++ d2) = [] \/
   s <> chars "0" (String.length s)) ->
  fname e = (s ++ String "." ext)%string ->
  find_last_of "." ext = None ->
  @is_regular_file (SimFs (d1 ++ d2) vol) (status e) = true ->
  Sim.wild_match (pat ++ ".*") (fname e) = true ->
  @next_filename_stem_matching_pattern (SimFs (d1 ++ e :: d2) vol) fuel' pat
  = Some (increment_filename_stem_ordinal s).
Proof.
  intros L L' H R S0 SZ N X Reg W.
  rewrite <- (stem_of_dotted s ext X), <- N.
  apply next_from_greatest.
  - exact L'.
  - apply (regular_matches_insert (d1 ++ d2) _ d1 d2 e _ _ W Reg).
    left. reflexivity.
  - intros name I.
    apply (regular_matches_insert (d1 ++ d2) _ d1 d2 e _ _ W Reg) in I.
    destruct I as [I|I]; [subst name; apply string_le_refl|].
    destruct SZ as [SZ|SZ]; [rewrite SZ in I; destruct I|].
    assert (NE : @regular_matches (SimFs (d1 ++ d2) vol) (pat ++ ".*")
                   (d1 ++ d2) <> [])
      by (intro E; rewrite E in I; destruct I).
    destruct (allocator_digit_case vol pat (d1 ++ d2) fuel s L H NE R S0 SZ)
      as [g [rest [G [M [P Inc]]]]].
    apply (string_le_trans name g (fname e)).
    + apply M. exact I.
    + apply string_lt_le. rewrite N, P. subst s.
      destruct (incremented_name_is_greater (remove_filename_extension g) rest
                  (String "." ext) S0 SZ) as [_ [_ Gt]].
      exact Gt.
  - rewrite N, (stem_of_dotted s ext X). exact S0.
Qed.

End Consecutive.

(* ================================================================= *)
(** * The further properties on concrete media *)

(** A mode-set with [app | binary] only, united with [in | ate]. *)
Lemma fatfs_mode_of_union_witness :
  has 0x300 (@openmode_in SimModes) = false /\
  @fatfs_mode_of demo SimModes (Z.lor 0x300 0x09) = 0x11 /\
  @fatfs_mode_of demo SimModes 0x300 = 0.
Proof.
  split; [reflexivity|].
  destruct (@fatfs_mode_of_union demo SimModes 0x300 0x09) as [U Z0].
  split.
  - rewrite U. reflexivity.
  - apply Z0; reflexivity.
Defined.

(** An open with [out | ate] whose seek to the end fails, then the
    destructor. *)
Lemma lifetime_closes_witness :
  @f_open demo (sim_file 10 100 [0; 3]) "A.TXT" 0x12
  = (0, sim_file 10 100 [3]) /\
  @f_lseek demo (sim_file 10 100 [3]) 10 = (3, sim_file 10 100 []) /\
  closes (@trace demo
            (snd ((@File_ctor demo SimModes "A.TXT" 0x0A ;;; @File_dtor demo)
                    (demo_world 10 100 [0; 3] 77)))) = 2%nat.
Proof.
  split; [reflexivity|]. split; [reflexivity|].
  exact (@lifetime_closes demo SimModes (demo_world 10 100 [0; 3] 77)
           "A.TXT" 0x0A 0 3 (sim_file 10 100 [3]) (sim_file 10 100 [])
           eq_refl eq_refl).
Defined.

Lemma failed_construction_is_closed_witness :
  @f_open demo (sim_file 10 100 [0; 3]) "A.TXT" 0x12
  = (0, sim_file 10 100 [3]) /\
  @err demo (this (snd (@File_ctor demo SimModes "A.TXT" 0x0A
                          (demo_world 10 100 [0; 3] 77)))) <> @FR_OK demo /\
  exists tr,
    @trace demo (snd (@File_ctor demo SimModes "A.TXT" 0x0A
                        (demo_world 10 100 [0; 3] 77)))
    = tr ++ [Call_close].
Proof.
  assert (E : @err demo (this (snd (@File_ctor demo SimModes "A.TXT" 0x0A
                (demo_world 10 100 [0; 3] 77)))) <> @FR_OK demo)
    by discriminate.
  split; [reflexivity|]. split; [exact E|].
  destruct (@failed_construction_is_closed demo SimModes
              (demo_world 10 100 [0; 3] 77) "A.TXT" 0x0A 0
              (sim_file 10 100 [3]) eq_refl E) as [[N _]|[_ H]].
  - exfalso. apply N. reflexivity.
  - exact H.
Defined.

Lemma failed_handle_stays_failed_witness :
  @err demo (this (demo_world 10 100 [] FR_EOF)) <> @FR_OK demo /\
  @trace demo
    (snd (@run_methods demo [Do_read 4; Do_puts "hi"; Do_seek 3; Do_sync]
            (demo_world 10 100 [] FR_EOF)))
  = [Call_puts "hi"].
Proof.
  assert (E : @err demo (this (demo_world 10 100 [] FR_EOF)) <> @FR_OK demo)
    by discriminate.
  split; [exact E|].
  exact (proj2 (proj2 (@failed_handle_stays_failed demo
                         [Do_read 4; Do_puts "hi"; Do_seek 3; Do_sync]
                         (demo_world 10 100 [] FR_EOF) E))).
Defined.

(** A file of 10 bytes on a medium with room for 15: a read and a write of
    20 bytes are both short.  The [puts] that follows each of them reaches
    the driver and returns true. *)
Lemma short_transfer_disables_handle_witness :
  @f_read demo (sim_file 10 15 []) 20 = (0, 10, Sim.mkFil 10 10 15 []) /\
  @f_write demo (sim_file 10 15 []) [] 20 = (0, 15, Sim.mkFil 15 15 15 []) /\
  @run_methods demo [Do_sync; Do_puts "hi"; Do_read 1]
    (snd (@read demo 20 (demo_world 10 15 [] 0)))
  = ([Flag false; Flag true; Flag false],
     @mkWorld demo (@mkFile demo (Sim.mkFil 12 12 15 []) FR_EOF)
       [Call_read 20; Call_puts "hi"]) /\
  @trace demo
    (snd (@run_methods demo [Do_sync; Do_puts "hi"; Do_read 1]
            (snd (@read demo 20 (demo_world 10 15 [] 0)))))
  = [Call_read 20; Call_puts "hi"] /\
  @trace demo
    (snd (@run_methods demo [Do_sync; Do_read 1]
            (snd (@write demo [] 20 (demo_world 10 15 [] 0)))))
  = [Call_write [] 20].
Proof.
  split; [reflexivity|]. split; [reflexivity|]. split; [reflexivity|].
  split.
  - destruct (@short_transfer_disables_handle demo (demo_world 10 15 [] 0)
                20 [] 0 10 0 15 (Sim.mkFil 10 10 15 [])
                (Sim.mkFil 15 15 15 [])
                [Do_sync; Do_puts "hi"; Do_read 1] eq_refl eq_refl eq_refl)
      as [HR _].
    destruct HR as [_ [_ T]]; [discriminate | exact T].
  - destruct (@short_transfer_disables_handle demo (demo_world 10 15 [] 0)
                20 [] 0 10 0 15 (Sim.mkFil 10 10 15 [])
                (Sim.mkFil 15 15 15 [])
                [Do_sync; Do_read 1] eq_refl eq_refl eq_refl) as [_ HW].
    destruct HW as [_ [_ T]]; [discriminate | exact T].
Defined.

(** An open that fails with [FR_NO_FILE] (4).  The [puts] that follows
    reaches the driver and returns true. *)
Lemma failed_open_disables_handle_witness :
  @f_open demo (sim_file 10 100 [4]) "A.TXT" 0x01 = (4, sim_file 10 100 []) /\
  4 <> @FR_OK demo /\
  @run_methods demo [Do_read 1; Do_puts "x"]
    (snd (@File_ctor demo SimModes "A.TXT" 0x01 (demo_world 10 100 [4] 77)))
  = ([Flag false; Flag true],
     @mkWorld demo (@mkFile demo (Sim.mkFil 1 10 100 []) 4)
       [Call_open "A.TXT" 0x01; Call_puts "x"]) /\
  @trace demo
    (snd (@run_methods demo [Do_read 1; Do_puts "x"]
            (snd (@File_ctor demo SimModes "A.TXT" 0x01
                    (demo_world 10 100 [4] 77)))))
  = [Call_open "A.TXT" 0x01; Call_puts "x"].
Proof.
  assert (N : 4 <> @FR_OK demo) by discriminate.
  split; [reflexivity|]. split; [exact N|]. split; [reflexivity|].
  exact (proj2 (proj2 (@failed_open_disables_handle demo SimModes
                         (demo_world 10 100 [4] 77) "A.TXT" 0x01 4
                         (sim_file 10 100 []) [Do_read 1; Do_puts "x"]
                         eq_refl N))).
Defined.

Lemma true_means_complete_witness :
  fst (@read demo 4 (demo_world 10 100 [] 0)) = true /\
  exists f', @f_read demo (sim_file 10 100 []) 4 = (0, 4, f').
Proof.
  assert (T : fst (@read demo 4 (demo_world 10 100 [] 0)) = true)
    by reflexivity.
  split; [exact T|].
  destruct (proj1 (@true_means_complete demo (demo_world 10 100 [] 0) 4 [])
              T) as [_ [f' [R _]]].
  exists f'. exact R.
Defined.

Lemma seek_lands_or_closes_witness :
  @err demo (this (demo_world 10 100 [] 0)) = @FR_OK demo /\
  @f_tell demo (f (this (snd (@seek demo 50 (demo_world 10 100 [] 0))))) = 50.
Proof.
  split; [reflexivity|].
  destruct (@seek_lands_or_closes demo (demo_world 10 100 [] 0) 50 eq_refl)
    as [[_ [T _]]|[E _]].
  - exact T.
  - exfalso. apply E. reflexivity.
Defined.

Lemma seek_returns_previous_target_witness :
  @err demo (this (snd (@seek demo 50 (demo_world 10 100 [] 0)))) = @FR_OK demo
  /\ fst (@seek demo 7 (snd (@seek demo 50 (demo_world 10 100 [] 0)))) = 50.
Proof.
  split; [reflexivity|].
  exact (@seek_returns_previous_target demo (demo_world 10 100 [] 0) 50 7
           eq_refl eq_refl).
Defined.

Lemma what_names_the_code_witness :
  @what demo demo_codes 0 = ""%string /\
  @what demo demo_codes 0x101 = "end of file"%string.
Proof.
  destruct (@what_names_the_code demo demo_codes 0) as [[_ H] [_ [_ [E _]]]].
  split; [apply H; reflexivity | exact E].
Defined.

(** A directory with the read-only and archive bits. *)
Lemma regular_file_ignores_other_bits_witness :
  Z.land 0x21 (@AM_DIR demo) = 0 /\
  @is_regular_file demo (Z.lor 0x10 0x21) = @is_regular_file demo 0x10.
Proof.
  split; [reflexivity|].
  exact (proj1 (@regular_file_ignores_other_bits demo 0x10 0x21 eq_refl)).
Defined.

(** The enumeration of an empty directory. *)
Lemma empty_name_only_from_constructor_witness :
  @f_findfirst demo "" "*.BIN" = (0, Sim.mkDir "*.BIN" [], Sim.no_entry) /\
  fname Sim.no_entry = ""%string /\
  @directory_iterator_ctor demo "" "*.BIN"
  = Some (@mkImpl demo (Sim.mkDir "*.BIN" []) Sim.no_entry).
Proof.
  split; [reflexivity|]. split; [reflexivity|].
  exact (proj1 (@empty_name_only_from_constructor demo "" "*.BIN"
                  (Sim.mkDir "*.BIN" []) Sim.no_entry None
                  eq_refl eq_refl)).
Defined.

Lemma scan_returns_greatest_enumerated_witness :
  @advances (SimFs only_CAP999 no_volume)
    (@directory_iterator_ctor (SimFs only_CAP999 no_volume) "" "*.BIN")
    None /\
  exists r fuel0,
    forall fuel, (fuel0 <= fuel)%nat ->
      @find_last_loop (SimFs only_CAP999 no_volume) fuel
        (@directory_iterator_ctor (SimFs only_CAP999 no_volume) "" "*.BIN")
        "" = Some r.
Proof.
  assert (A : @advances (SimFs only_CAP999 no_volume)
                (@directory_iterator_ctor (SimFs only_CAP999 no_volume)
                   "" "*.BIN") None).
  { apply (@advances_step (SimFs only_CAP999 no_volume) _ None).
    - reflexivity.
    - apply advances_none. }
  split; [exact A|].
  destruct (@scan_returns_greatest_enumerated (SimFs only_CAP999 no_volume)
              _ "" A) as [r [fuel0 [T _]]].
  exists r, fuel0. exact T.
Defined.

Lemma remove_extension_cuts_at_last_dot_witness :
  find_last_of "." "BIN" = None /\
  remove_filename_extension "LOG.2016.BIN" = "LOG.2016"%string.
Proof.
  split; [reflexivity|].
  exact (proj2 (proj2 (remove_extension_cuts_at_last_dot
                         "" "LOG.2016" "BIN")) eq_refl).
Defined.

Lemma increment_adds_one_witness :
  all_digits "0199" = true /\
  decimal (increment_filename_stem_ordinal "0199")
  = (decimal "0199" + 1) mod 10 ^ Z.of_nat (String.length "0199").
Proof.
  split; [reflexivity|].
  exact (proj2 (proj2 (increment_adds_one "0199" eq_refl))).
Defined.

Lemma increment_keeps_prefix_witness :
  all_digits "129" = true /\
  "129"%string <> chars "9" (String.length "129") /\
  increment_filename_stem_ordinal "CAP129"
  = ("CAP" ++ increment_filename_stem_ordinal "129")%string.
Proof.
  assert (N : "129"%string <> chars "9" (String.length "129"))
    by discriminate.
  split; [reflexivity|]. split; [exact N|].
  exact (increment_keeps_prefix "CAP" "129" eq_refl N).
Defined.

Lemma increment_is_greater_witness :
  increment_filename_stem_ordinal "CAP129" <> ""%string /\
  ("CAP129.BIN" <? increment_filename_stem_ordinal "CAP129" ++ ".BIN")%string
  = true.
Proof.
  assert (N : increment_filename_stem_ordinal "CAP129" <> ""%string)
    by discriminate.
  assert (Z0 : increment_filename_stem_ordinal "CAP129"
               <> chars "0" (String.length
                               (increment_filename_stem_ordinal "CAP129")))
    by discriminate.
  split; [exact N|].
  exact (proj2 (proj2 (increment_is_greater "CAP129" ".BIN" ".BIN" N Z0))).
Defined.

Lemma replace_leaves_no_placeholder_witness :
  "0"%char <> "?"%char /\
  ~ In "?"%char (list_ascii_of_string (replace "?" "0" "CAP???")).
Proof.
  assert (N : "0"%char <> "?"%char) by discriminate.
  split; [exact N|].
  exact (proj1 (proj2 (replace_leaves_no_placeholder "?" "0" "CAP???")) N).
Defined.

(** A directory with a matching sub-directory and no matching file. *)
Lemma allocator_seeds_from_pattern_witness :
  (List.length [dir_entry "LOG01.DIR"; file_entry "NOTES.TXT"] < 3)%nat /\
  @regular_matches
    (SimFs [dir_entry "LOG01.DIR"; file_entry "NOTES.TXT"] no_volume)
    ("LOG??" ++ ".*") [dir_entry "LOG01.DIR"; file_entry "NOTES.TXT"] = [] /\
  @next_filename_stem_matching_pattern
    (SimFs [dir_entry "LOG01.DIR"; file_entry "NOTES.TXT"] no_volume)
    3 "LOG??" = Some "LOG00"%string.
Proof.
  assert (L : (List.length [dir_entry "LOG01.DIR"; file_entry "NOTES.TXT"]
               < 3)%nat) by (cbn; lia).
  split; [exact L|]. split; [reflexivity|].
  exact (proj1 (allocator_seeds_from_pattern no_volume "LOG??"
                  [dir_entry "LOG01.DIR"; file_entry "NOTES.TXT"] 3
                  L eq_refl)).
Defined.

Lemma last_match_on_directory_witness :
  (List.length captures_0_1_4 < 6)%nat /\
  exists r,
    @find_last_file_matching_pattern (SimFs captures_0_1_4 no_volume) 6
      ("CAP???" ++ ".*") = Some r.
Proof.
  assert (L : (List.length captures_0_1_4 < 6)%nat) by (cbn; lia).
  split; [exact L|].
  destruct (last_match_on_directory no_volume "CAP???" captures_0_1_4 6 L)
    as [r [F _]].
  exists r. exact F.
Defined.

Lemma allocated_stem_is_unused_witness :
  (List.length captures_0_1_4 < 6)%nat /\
  @next_filename_stem_matching_pattern (SimFs captures_0_1_4 no_volume)
    6 "CAP???" = Some "CAP005"%string /\
  forall name,
    In name (@regular_matches (SimFs captures_0_1_4 no_volume)
               ("CAP???" ++ ".*") captures_0_1_4) ->
    remove_filename_extension name <> "CAP005"%string.
Proof.
  assert (L : (List.length captures_0_1_4 < 6)%nat) by (cbn; lia).
  assert (H : forall name,
             In name (@regular_matches (SimFs captures_0_1_4 no_volume)
                        ("CAP???" ++ ".*") captures_0_1_4) ->
             remove_filename_extension name <> ""%string).
  { intros name I. cbn in I.
    destruct I as [I|[I|[I|[]]]]; subst name; discriminate. }
  assert (S0 : "CAP005"%string <> ""%string) by discriminate.
  assert (SZ : "CAP005"%string <> chars "0" (String.length "CAP005"))
    by discriminate.
  split; [exact L|]. split; [reflexivity|].
  intros name I.
  exact (proj2 (allocated_stem_is_unused no_volume "CAP???" captures_0_1_4
                  6 "CAP005" L H eq_refl S0 SZ name I)).
Defined.

(** The capture [CAP005.BIN] is written and the allocator is asked
    again. *)
Lemma allocations_follow_one_another_witness :
  @next_filename_stem_matching_pattern
    (SimFs (captures_0_1_4 ++ []) no_volume) 6 "CAP???"
  = Some "CAP005"%string /\
  @next_filename_stem_matching_pattern
    (SimFs (captures_0_1_4 ++ [file_entry "CAP005.BIN"]) no_volume)
    7 "CAP???"
  = Some "CAP006"%string.
Proof.
  assert (L : (List.length (captures_0_1_4 ++ []) < 6)%nat) by (cbn; lia).
  assert (L' : (List.length (captures_0_1_4 ++ [file_entry "CAP005.BIN"])
                < 7)%nat) by (cbn; lia).
  assert (H : forall name,
             In name (@regular_matches (SimFs (captures_0_1_4 ++ []) no_volume)
                        ("CAP???" ++ ".*") (captures_0_1_4 ++ [])) ->
             remove_filename_extension name <> ""%string).
  { intros name I. cbn in I.
    destruct I as [I|[I|[I|[]]]]; subst name; discriminate. }
  assert (S0 : "CAP005"%string <> ""%string) by discriminate.
  assert (SZ : @regular_matches (SimFs (captures_0_1_4 ++ []) no_volume)
                 ("CAP???" ++ ".*") (captures_0_1_4 ++ []) = [] \/
               "CAP005"%string <> chars "0" (String.length "CAP005"))
    by (right; discriminate).
  split; [reflexivity|].
  exact (allocations_follow_one_another no_volume "CAP???"
           captures_0_1_4 [] (file_entry "CAP005.BIN") "CAP005" "BIN" 6 7
           L L' H eq_refl S0 SZ eq_refl eq_refl eq_refl eq_refl).
Defined.
